(** * openvdb/math/Tuple.h: a shallow embedding and its properties

    [Tuple<SIZE, T>] is a fixed-size homogeneous array [T mm[SIZE]] with a
    converting constructor, unchecked indexing, text formatting, raw binary
    I/O, two lexicographic comparisons and an element-wise absolute value.

    Conventions of the embedding:
    - the template parameters [SIZE] and [T] are parameters of the type
      [Tuple SIZE T]; the backing array [mm] is a [list T], and a C++ object
      is a tuple whose list has exactly [SIZE] elements ([wf]);
    - undefined behaviour (an access outside the array, [::abs] of the most
      negative [int], a zero-length array) is the [None] of the option monad;
    - storage that the default constructor leaves uninitialised is passed in
      as an explicit argument holding arbitrary values;
    - streams are records holding their byte or character sequence, their
      state bits and, where a call reads it, their formatting state; a call
      on a stream either returns or lets [std::ios_base::failure] escape,
      as the exception mask of the stream says. *)

From Stdlib Require Import ZArith Lia Bool String Ascii SpecFloat.
From Stdlib.Strings Require Import Byte.
From stdpp Require Import base tactics option numbers list strings pretty.

(** ** The C++ [int]: 32 bits, two's complement *)

Module Int32.
Local Open Scope Z_scope.

Definition INT_MIN : Z := -2147483648.
Definition INT_MAX : Z := 2147483647.
Definition modulus : Z := 4294967296.

Definition in_range (z : Z) : bool := (INT_MIN <=? z) && (z <=? INT_MAX).

Record int : Type := mkint { intval : Z; intrange : in_range intval = true }.

(** Reduction of an arbitrary integer to the signed 32-bit range. *)
Definition wrap (z : Z) : Z := (z - INT_MIN) mod modulus + INT_MIN.

Lemma wrap_in_range z : in_range (wrap z) = true.
Proof.
  unfold in_range, wrap, INT_MIN, INT_MAX, modulus.
  pose proof (Z.mod_pos_bound (z - -2147483648) 4294967296 eq_refl).
  apply andb_true_intro; split; apply Z.leb_le; lia.
Qed.

(** A proof of [b = true] that computes to [eq_refl] on closed [b]. *)
Definition canon (b : bool) : b = true -> b = true :=
  match b with
  | true => fun _ => eq_refl
  | false => fun H => H
  end.

Definition repr (z : Z) : int := mkint (wrap z) (canon _ (wrap_in_range z)).

Definition eq (x y : int) : bool := intval x =? intval y.
Definition lt (x y : int) : bool := intval x <? intval y.
Definition gt (x y : int) : bool := intval x >? intval y.

(** [int abs(int)] of the C library: the result is undefined when it cannot
    be represented, which happens at [INT_MIN] only. *)
Definition abs (x : int) : option int :=
  if decide (intval x = INT_MIN) then None else Some (repr (Z.abs (intval x))).

End Int32.

Abbreviation int := Int32.int.

(** ** The C++ [double], by its IEEE-754 value *)

Definition double : Type := spec_float.

(** ** What the templates ask of their element types *)

(** [mm[i] = src[i]] in the converting constructor: the implicit conversion
    from [U] to [T].  [mm[i] = 0] is the instance at [U := int]. *)
Class Convertible (U T : Type) := convert : U -> T.
Global Hint Mode Convertible ! ! : typeclass_instances.

(** [isExactlyEqual(a, b)], [a < b] and [a > b] on a [T0] and a [T1]. *)
Class Comparable (T0 T1 : Type) := {
  isExactlyEqual : T0 -> T1 -> bool;
  less : T0 -> T1 -> bool;
  greater : T0 -> T1 -> bool
}.
Global Hint Mode Comparable ! ! : typeclass_instances.

(** [::abs(x)] and [::fabs(x)] with the result stored back into a [T];
    [None] where the C library leaves the result undefined. *)
Class HasAbs (T : Type) := c_abs : T -> option T.
Global Hint Mode HasAbs ! : typeclass_instances.
Class HasFabs (T : Type) := c_fabs : T -> option T.
Global Hint Mode HasFabs ! : typeclass_instances.

(** [boost::is_integral<T>::value], together with the one operation that the
    specialisation of [TupleAbs] it selects needs: templates instantiate
    nothing else. *)
Class Numeric (T : Type) := {
  is_integral : bool;
  abs_impl : if is_integral then HasAbs T else HasFabs T
}.
Global Hint Mode Numeric ! : typeclass_instances.

(** The object representation of a [T]: [sizeof(T)] bytes. *)
Class ObjectRepr (T : Type) := {
  sizeof : nat;
  to_bytes : T -> list byte;
  of_bytes : list byte -> T
}.
Global Hint Mode ObjectRepr ! : typeclass_instances.
Arguments sizeof T {_}.

(** [buffer << x]: the default textual representation of an element. *)
Class Streamable (T : Type) := put : T -> string.
Global Hint Mode Streamable ! : typeclass_instances.

(** ** Arrays and loops *)

Section Arrays.
Context {A : Type}.

(** [a[i]] on a raw array of [length a] elements. *)
Definition arr_load (a : list A) (i : nat) : option A := a !! i.

(** [a[i] = v]. *)
Definition arr_store (a : list A) (i : nat) (v : A) : option (list A) :=
  if decide (i < length a) then Some (<[i := v]> a) else None.

(** [n] iterations of a loop body, the counter starting at [i]. *)
Fixpoint for_iter (n i : nat) (body : nat -> A -> option A) (s : A) : option A :=
  match n with
  | O => Some s
  | S n' => s' ← body i s; for_iter n' (S i) body s'
  end.

(** [for (i = lo; i < hi; ++i) body]. *)
Definition for_loop (lo hi : nat) (body : nat -> A -> option A) (s : A) : option A :=
  for_iter (hi - lo) lo body s.
End Arrays.

(** ** The class template *)

Record Tuple (SIZE : nat) (T : Type) : Type := mkTuple { mm : list T }.
Arguments mkTuple {SIZE T} _.
Arguments mm {SIZE T} _.

(** The objects of type [Tuple<SIZE, T>]: [mm] has [SIZE] elements. *)
Definition wf {SIZE T} (t : Tuple SIZE T) : Prop := length (mm t) = SIZE.

Section TupleAccess.
Context {SIZE : nat} {T : Type}.

(** [Tuple() {}]: the elements keep whatever the storage held. *)
Definition Tuple_default (storage : list T) : Tuple SIZE T := mkTuple storage.

(** [T operator[](int i) const]. *)
Definition Tuple_at (t : Tuple SIZE T) (i : Z) : option T :=
  if decide (0 ≤ i)%Z then arr_load (mm t) (Z.to_nat i) else None.

(** [t[i] = x] through [T& operator[](int i)]. *)
Definition Tuple_assign (t : Tuple SIZE T) (i : Z) (x : T) : option (Tuple SIZE T) :=
  if decide (0 ≤ i)%Z then m ← arr_store (mm t) (Z.to_nat i) x; Some (mkTuple m)
  else None.
End TupleAccess.

Section TupleConstructors.
Context {SIZE : nat} {T : Type}.

(** [Tuple(Tuple const &src)]. *)
Definition Tuple_copy (storage : list T) (src : Tuple SIZE T) : option (Tuple SIZE T) :=
  m ← for_loop 0 SIZE
        (fun i m => v ← arr_load (mm src) i; arr_store m i v) storage;
  Some (mkTuple m).

(** [template <int src_size, typename src_valtype>
    explicit Tuple(Tuple<src_size, src_valtype> const &src)]. *)
Definition Tuple_convert {src_size : nat} {src_valtype : Type}
    `{!Convertible src_valtype T} `{!Convertible int T}
    (storage : list T) (src : Tuple src_size src_valtype) : option (Tuple SIZE T) :=
  let copyEnd := if (SIZE <? src_size)%nat then SIZE else src_size in
  m1 ← for_loop 0 copyEnd
         (fun i m => v ← Tuple_at src (Z.of_nat i); arr_store m i (convert v)) storage;
  m2 ← for_loop copyEnd SIZE
         (fun i m => arr_store m i (convert (Int32.repr 0))) m1;
  Some (mkTuple m2).
End TupleConstructors.

Section TupleCompatibility.
Context {SIZE : nat} {T : Type}.

(** [template <typename S> void toV(S *v) const]: [v] is the caller's
    array, the result is that array afterwards. *)
Definition Tuple_toV {S : Type} `{!Convertible T S} (t : Tuple SIZE T) (v : list S)
    : option (list S) :=
  for_loop 0 SIZE
    (fun i v => x ← arr_load (mm t) i; arr_store v i (convert x)) v.

(** [value_type const *asV() const]: the array itself. *)
Definition Tuple_asV (t : Tuple SIZE T) : list T := mm t.
End TupleCompatibility.

(** ** Streams *)

(** What [std::ostringstream buffer] received, one entry per [<<]: a string
    literal or the text of an element. *)
Inductive insertion : Type :=
  | ins_literal (s : string)
  | ins_value (s : string).

Definition ostringstream : Type := list insertion.

Definition insertion_text (p : insertion) : string :=
  match p with ins_literal s | ins_value s => s end.

(** [buffer.str()]. *)
Definition ostringstream_str (buffer : ostringstream) : string :=
  foldr (fun p acc => insertion_text p +:+ acc) "" buffer.

(** [std::ios_base::iostate]: a set of state bits, as [rdstate()] and
    [exceptions()] hold one. *)
Record iostate : Type := mkIostate {
  io_eofbit : bool;
  io_failbit : bool;
  io_badbit : bool
}.

Definition goodbit : iostate := mkIostate false false false.

(** [(a & b) != 0]. *)
Definition iostate_meets (a b : iostate) : bool :=
  (io_eofbit a && io_eofbit b) || (io_failbit a && io_failbit b)
  || (io_badbit a && io_badbit b).

(** How a call on a stream ends: it returns, or [std::ios_base::failure]
    escapes from it; either way it leaves the state it carries. *)
Inductive outcome (A : Type) : Type :=
  | returns (a : A)
  | throws (a : A).
Arguments returns {A} _.
Arguments throws {A} _.

Definition outcome_state {A : Type} (o : outcome A) : A :=
  match o with returns a | throws a => a end.


(** [setstate] has set bits and the state is now [state]: the call goes on
    unless a set bit is in [exceptions()]. *)
Definition raise_if {A : Type} (state exceptions : iostate) (a : A) : outcome A :=
  if iostate_meets state exceptions then throws a else returns a.

(** The sink of a [std::ostream]: the characters handed to it so far. *)
Definition ostream : Type := list byte.

(** A [std::ostream] as a formatted insertion sees it: the sink, which
    takes every character handed to it, with [width()], [fill()], whether
    [flags() & adjustfield] is [left], [rdstate()] and [exceptions()]. *)
Record text_ostream : Type := mkTextOstream {
  os_sink : ostream;
  os_width : nat;
  os_fill : byte;
  os_left : bool;
  os_state : iostate;
  os_exceptions : iostate
}.

Definition os_good (ostr : text_ostream) : bool :=
  negb (io_eofbit (os_state ostr)) && negb (io_failbit (os_state ostr))
  && negb (io_badbit (os_state ostr)).

(** [ostr << s] for a [std::string]: on a good stream the characters of
    [s], padded with [fill()] to [width()] on the side that the adjustment
    says, reach the sink and [width()] goes back to 0; on a stream that is
    not good nothing is inserted and [failbit] is set. *)
Definition ostream_insert (ostr : text_ostream) (s : string) : outcome text_ostream :=
  if os_good ostr then
    let chars := list_byte_of_string s in
    let pad := replicate (os_width ostr - String.length s) (os_fill ostr) in
    returns (mkTextOstream
               (os_sink ostr ++ (if os_left ostr then chars ++ pad else pad ++ chars))
               0 (os_fill ostr) (os_left ostr) (os_state ostr) (os_exceptions ostr))
  else
    let state := mkIostate (io_eofbit (os_state ostr)) true (io_badbit (os_state ostr)) in
    raise_if state (os_exceptions ostr)
      (mkTextOstream (os_sink ostr) (os_width ostr) (os_fill ostr) (os_left ostr)
                     state (os_exceptions ostr)).

(** [os.write(p, n)] on a good stream, [mem] being the object that [p]
    points into. *)
Definition ostream_write (os : ostream) (mem : list byte) (n : nat) : option ostream :=
  if decide (n ≤ length mem) then Some (os ++ take n mem) else None.

(** A [std::istream]: the bytes still to come and the state bits.  Its
    exception mask does not change what a call does to it, only how the
    call ends, and is an argument of [istream_read_call]. *)
Record istream : Type := mkIstream {
  is_data : list byte;
  eofbit : bool;
  failbit : bool;
  badbit : bool
}.

Definition good (istr : istream) : bool :=
  negb (eofbit istr) && negb (failbit istr) && negb (badbit istr).

(** What [is.read(p, n)] does to the object [mem] that [p] points into and
    to the stream: the bytes extracted replace the front of [mem]; running
    out of input sets [eofbit] and [failbit]; a stream that is not [good]
    delivers nothing and gets [failbit]. *)
Definition istream_read (istr : istream) (mem : list byte) (n : nat)
    : option (list byte * istream) :=
  if decide (n ≤ length mem) then
    if good istr then
      let got := take n (is_data istr) in
      let short := bool_decide (length got < n) in
      Some (got ++ drop (length got) mem,
            mkIstream (drop n (is_data istr)) short short false)
    else
      Some (mem, mkIstream (is_data istr) (eofbit istr) true (badbit istr))
  else None.



(** The bytes of [T mm[SIZE]] and the values that such bytes hold. *)
Definition array_bytes {T} `{!ObjectRepr T} (a : list T) : list byte :=
  concat (to_bytes <$> a).

Fixpoint array_of_bytes {T} `{!ObjectRepr T} (n : nat) (mem : list byte) : list T :=
  match n with
  | O => []
  | S n' => of_bytes (take (sizeof T) mem) :: array_of_bytes n' (drop (sizeof T) mem)
  end.

Section TupleIO.
Context {SIZE : nat} {T : Type}.

(** The insertions that [str()] makes into its buffer. *)
Definition Tuple_str_buffer `{!Streamable T} (t : Tuple SIZE T) : option ostringstream :=
  let buffer := [ins_literal "["] in
  buffer ← for_loop 0 SIZE
    (fun j buffer =>
       let buffer := if decide (j ≠ 0) then buffer ++ [ins_literal ", "] else buffer in
       x ← arr_load (mm t) j;
       Some (buffer ++ [ins_value (put x)])) buffer;
  Some (buffer ++ [ins_literal "]"]).

(** [std::string str() const]. *)
Definition Tuple_str `{!Streamable T} (t : Tuple SIZE T) : option string :=
  buffer ← Tuple_str_buffer t; Some (ostringstream_str buffer).

(** [void write(std::ostream& os) const]. *)
Definition Tuple_write `{!ObjectRepr T} (t : Tuple SIZE T) (os : ostream) : option ostream :=
  ostream_write os (array_bytes (mm t)) (sizeof T * SIZE).

(** [void read(std::istream& is)]: the tuple and the stream afterwards,
    whether the call returns or throws. *)
Definition Tuple_read `{!ObjectRepr T} (t : Tuple SIZE T) (istr : istream)
    : option (Tuple SIZE T * istream) :=
  r ← istream_read istr (array_bytes (mm t)) (sizeof T * SIZE);
  Some (mkTuple (array_of_bytes SIZE r.1), r.2).


(** [std::ostream& operator<<(std::ostream& ostr, const Tuple<SIZE, T>&)]. *)
Definition operator_shl `{!Streamable T} (ostr : text_ostream) (classname : Tuple SIZE T)
    : option (outcome text_ostream) :=
  s ← Tuple_str classname; Some (ostream_insert ostr s).
End TupleIO.

(** ** Ordering *)

Section Ordering.
Context {SIZE : nat} {T0 T1 : Type} `{!Comparable T0 T1}.

(** The loop of [operator<]: [Some r] when it returns [r], [None] when it
    runs to its end. *)
Fixpoint lt_loop (n i : nat) (t0 : Tuple SIZE T0) (t1 : Tuple SIZE T1)
    : option (option bool) :=
  match n with
  | O => Some None
  | S n' =>
      a ← Tuple_at t0 (Z.of_nat i);
      b ← Tuple_at t1 (Z.of_nat i);
      if negb (isExactlyEqual a b) then Some (Some (less a b))
      else lt_loop n' (S i) t0 t1
  end.

(** [bool operator<(const Tuple<SIZE, T0>&, const Tuple<SIZE, T1>&)].
    With [SIZE = 0] the bound [SIZE-1] is negative and the scan leaves the
    array. *)
Definition operator_lt (t0 : Tuple SIZE T0) (t1 : Tuple SIZE T1) : option bool :=
  if decide (SIZE = 0) then None
  else
    r ← lt_loop (SIZE - 1) 0 t0 t1;
    match r with
    | Some b => Some b
    | None =>
        a ← Tuple_at t0 (Z.of_nat SIZE - 1);
        b ← Tuple_at t1 (Z.of_nat SIZE - 1);
        Some (less a b)
    end.

(** The loop of [operator>]. *)
Fixpoint gt_loop (n i : nat) (t0 : Tuple SIZE T0) (t1 : Tuple SIZE T1)
    : option (option bool) :=
  match n with
  | O => Some None
  | S n' =>
      a ← Tuple_at t0 (Z.of_nat i);
      b ← Tuple_at t1 (Z.of_nat i);
      if negb (isExactlyEqual a b) then Some (Some (greater a b))
      else gt_loop n' (S i) t0 t1
  end.

(** [bool operator>(const Tuple<SIZE, T0>&, const Tuple<SIZE, T1>&)]. *)
Definition operator_gt (t0 : Tuple SIZE T0) (t1 : Tuple SIZE T1) : option bool :=
  if decide (SIZE = 0) then None
  else
    r ← gt_loop (SIZE - 1) 0 t0 t1;
    match r with
    | Some b => Some b
    | None =>
        a ← Tuple_at t0 (Z.of_nat SIZE - 1);
        b ← Tuple_at t1 (Z.of_nat SIZE - 1);
        Some (greater a b)
    end.
End Ordering.

(** ** Absolute value *)

Section AbsoluteValue.
Context {SIZE : nat} {T : Type}.

(** [TupleAbs<SIZE, T, IsInteger>::absVal], the primary template. *)
Definition TupleAbs_absVal `{!HasFabs T} (storage : list T) (t : Tuple SIZE T)
    : option (Tuple SIZE T) :=
  let result := Tuple_default storage in
  for_loop 0 SIZE
    (fun i result =>
       x ← Tuple_at t (Z.of_nat i);
       y ← c_fabs x;
       Tuple_assign result (Z.of_nat i) y) result.

(** [TupleAbs<SIZE, T, /*IsInteger=*/true>::absVal]. *)
Definition TupleAbs_true_absVal `{!HasAbs T} (storage : list T) (t : Tuple SIZE T)
    : option (Tuple SIZE T) :=
  let result := Tuple_default storage in
  for_loop 0 SIZE
    (fun i result =>
       x ← Tuple_at t (Z.of_nat i);
       y ← c_abs x;
       Tuple_assign result (Z.of_nat i) y) result.

(** [Abs]: the specialisation is chosen by [boost::is_integral<T>::value]. *)
Definition Abs `{!Numeric T} (storage : list T) (t : Tuple SIZE T)
    : option (Tuple SIZE T) :=
  (if is_integral as b return (if b then HasAbs T else HasFabs T) -> _
   then fun H : HasAbs T => @TupleAbs_true_absVal H storage t
   else fun H : HasFabs T => @TupleAbs_absVal H storage t) abs_impl.

(** The element operation that [Abs] ends up applying. *)
Definition abs_op `{!Numeric T} : T -> option T :=
  (if is_integral as b return (if b then HasAbs T else HasFabs T) -> T -> option T
   then fun H : HasAbs T => @c_abs T H
   else fun H : HasFabs T => @c_fabs T H) abs_impl.
End AbsoluteValue.

(** ** The element types [int] and [double] *)

Definition byte_of_Z (z : Z) : byte :=
  default x00 (Byte.of_N (Z.to_N (z mod 256))).

Definition Z_of_byte (b : byte) : Z := Z.of_N (Byte.to_N b).

(** The unsigned number held by bytes in little-endian order. *)
Definition le_decode (bs : list byte) : Z :=
  foldr (fun b acc => (Z_of_byte b + 256 * acc)%Z) 0%Z bs.

Global Instance int_to_int : Convertible int int := fun x => x.
Global Instance double_to_double : Convertible double double := fun x => x.
Global Instance int_to_double : Convertible int double :=
  fun x => binary_normalize 53 1024 (Int32.intval x) 0 false.

(** Modelled from the spec: [isExactlyEqual] is declared in Math.h, outside
    this file; the spec calls it exact equality, which is [==] on the two
    elements. *)
Global Instance int_comparable : Comparable int int := {|
  isExactlyEqual := Int32.eq;
  less := Int32.lt;
  greater := Int32.gt
|}.

Definition SFgtb (x y : double) : bool :=
  match SFcompare x y with Some Gt => true | _ => false end.

(** Modelled from the spec: [isExactlyEqual] as [==] on IEEE-754 values, so
    a NaN is not exactly equal to itself. *)
Global Instance double_comparable : Comparable double double := {|
  isExactlyEqual := SFeqb;
  less := SFltb;
  greater := SFgtb
|}.

(** [int] is an integral type; its operation is [int abs(int)]. *)
Global Instance int_numeric : Numeric int := {|
  is_integral := true;
  abs_impl := Int32.abs
|}.

(** [double] is not; its operation is [double fabs(double)], which clears
    the sign and is defined on every value. *)
Global Instance double_numeric : Numeric double := {|
  is_integral := false;
  abs_impl := fun x => Some (SFabs x)
|}.

Global Instance int_streamable : Streamable int := fun x => pretty (Int32.intval x).

(** Four bytes, least significant first, two's complement. *)
Global Instance int_repr : ObjectRepr int := {|
  sizeof := 4;
  to_bytes := fun x =>
    let u := (Int32.intval x mod Int32.modulus)%Z in
    [byte_of_Z u; byte_of_Z (u / 256); byte_of_Z (u / 65536); byte_of_Z (u / 16777216)];
  of_bytes := fun bs => Int32.repr (le_decode bs)
|}.

(** Tuples of [int] from literals. *)
Definition ints {SIZE : nat} (l : list Z) : Tuple SIZE int := mkTuple (Int32.repr <$> l).

(** ** Vocabulary of the statements *)

(** What the ordering theorems ask of [==], [<] and [>] on one element type:
    the laws that the built-in arithmetic types satisfy. *)
Class ComparableLaws (T : Type) `{!Comparable T T} : Prop := {
  isExactlyEqual_sym (x y : T) : isExactlyEqual x y = isExactlyEqual y x;
  greater_less (x y : T) : greater x y = less y x;
  less_asym (x y : T) : less x y = true -> less y x = false
}.

(** What [write] and [read] rely on: an object representation has
    [sizeof(T)] bytes, and the bytes of a value hold that value. *)
Class ObjectReprLaws (T : Type) `{!ObjectRepr T} : Prop := {
  to_bytes_length (x : T) : length (to_bytes x) = sizeof T;
  of_to_bytes (x : T) : of_bytes (to_bytes x) = x
}.

Section ScanDefs.
Context {SIZE : nat} {T0 T1 : Type} `{!Comparable T0 T1}.

(** The scan that [operator<] and [operator>] share, the element
    comparison [cmp] left open. *)
Fixpoint scan_loop (cmp : T0 -> T1 -> bool) (n i : nat)
    (t0 : Tuple SIZE T0) (t1 : Tuple SIZE T1) : option (option bool) :=
  match n with
  | O => Some None
  | S n' =>
      a ← Tuple_at t0 (Z.of_nat i);
      b ← Tuple_at t1 (Z.of_nat i);
      if negb (isExactlyEqual a b) then Some (Some (cmp a b))
      else scan_loop cmp n' (S i) t0 t1
  end.

Definition lex_order (cmp : T0 -> T1 -> bool)
    (t0 : Tuple SIZE T0) (t1 : Tuple SIZE T1) : option bool :=
  if decide (SIZE = 0) then None
  else
    r ← scan_loop cmp (SIZE - 1) 0 t0 t1;
    match r with
    | Some b => Some b
    | None =>
        a ← Tuple_at t0 (Z.of_nat SIZE - 1);
        b ← Tuple_at t1 (Z.of_nat SIZE - 1);
        Some (cmp a b)
    end.

(** Positions [0 .. n-1] of the two tuples are exactly equal. *)
Definition equal_before (t0 : Tuple SIZE T0) (t1 : Tuple SIZE T1) (n : nat) : Prop :=
  forall k x y, k < n -> mm t0 !! k = Some x -> mm t1 !! k = Some y ->
    isExactlyEqual x y = true.
End ScanDefs.

Section AbsDefs.
Context {SIZE : nat} {T : Type}.

(** The loop shared by the two specialisations, the element operation
    [f] left open. *)
Definition absVal_loop (f : T -> option T) (storage : list T) (t : Tuple SIZE T)
    : option (Tuple SIZE T) :=
  for_loop 0 SIZE
    (fun i result =>
       x ← Tuple_at t (Z.of_nat i);
       y ← f x;
       Tuple_assign result (Z.of_nat i) y) (Tuple_default storage).
End AbsDefs.

Global Instance insertion_eq_dec : EqDecision insertion.
Proof. solve_decision. Defined.

(** The insertions for a sequence of elements: [", "] before every element
    but the first. *)
Definition separated {T} `{!Streamable T} (l : list T) : ostringstream :=
  match l with
  | [] => []
  | x :: l' => ins_value (put x) :: (l' ≫= fun y => [ins_literal ", "; ins_value (put y)])
  end.

(** How many times [buffer << ", "] ran. *)
Definition separators (buffer : ostringstream) : nat :=
  length (filter (fun p => p = ins_literal ", ") buffer).


(** What transitivity of the ordering asks of [==] and [<] on one element
    type. *)
Class OrderLaws (T : Type) `{!Comparable T T} : Prop := {
  less_not_equal (x y : T) : less x y = true -> isExactlyEqual x y = false;
  equal_trans (x y z : T) :
    isExactlyEqual x y = true -> isExactlyEqual y z = true -> isExactlyEqual x z = true;
  less_trans (x y z : T) : less x y = true -> less y z = true -> less x z = true;
  less_equal (x y z : T) :
    less x y = true -> isExactlyEqual y z = true -> less x z = true;
  equal_less (x y z : T) :
    isExactlyEqual x y = true -> less y z = true -> less x z = true
}.

(** Element types on which [==] is identity and [<] is total. *)
Class TotalLaws (T : Type) `{!Comparable T T} : Prop := {
  equal_refl (x : T) : isExactlyEqual x x = true;
  less_total (x y : T) : less x y = false -> less y x = false -> x = y
}.

(** Object representations in which every [sizeof(T)] bytes are the bytes
    of the value they hold. *)
Class ObjectReprOnto (T : Type) `{!ObjectRepr T} : Prop :=
  to_of_bytes (bs : list byte) :
    length bs = sizeof T -> to_bytes (of_bytes (T:=T) bs) = bs.

(** Sample tuples. *)
Definition T123 : Tuple 3 int := ints [1; 2; 3]%Z.
Definition T124 : Tuple 3 int := ints [1; 2; 4]%Z.
Definition T000 : Tuple 3 int := ints [0; 0; 0]%Z.

(** Sample streams: an empty good stream in its initial formatting state
    (width 0, fill [' '], right adjustment, no exceptions), and the same
    after [std::setw(12)]. *)
Definition ostr0 : text_ostream := mkTextOstream [] 0 x20 false goodbit goodbit.
Definition ostr12 : text_ostream := mkTextOstream [] 12 x20 false goodbit goodbit.

(** * Properties *)

(** ** The type [int] *)

Module Int32Facts.
Import Int32.
Local Open Scope Z_scope.

Lemma in_range_bounds z : in_range z = true <-> INT_MIN <= z <= INT_MAX.
Proof.
  unfold in_range. rewrite andb_true_iff, !Z.leb_le. tauto.
Qed.

Lemma intval_bounds (x : int) : INT_MIN <= intval x <= INT_MAX.
Proof. apply in_range_bounds, intrange. Qed.

Lemma int_eq (x y : int) : intval x = intval y -> x = y.
Proof.
  destruct x as [a Ha], y as [b Hb]; simpl; intros ->.
  f_equal. apply (Eqdep_dec.UIP_dec Bool.bool_dec).
Qed.

Lemma wrap_small z : INT_MIN <= z <= INT_MAX -> wrap z = z.
Proof.
  unfold wrap, INT_MIN, INT_MAX, modulus; intros Hz.
  rewrite Z.mod_small by lia. lia.
Qed.

Lemma intval_repr z : INT_MIN <= z <= INT_MAX -> intval (repr z) = z.
Proof. apply wrap_small. Qed.

Lemma repr_intval (x : int) : repr (intval x) = x.
Proof. apply int_eq. simpl. apply wrap_small, intval_bounds. Qed.
End Int32Facts.

(** ** Loops and arrays *)

Section LoopLemmas.
Context {A : Type}.

Lemma for_iter_inv (P : nat -> A -> Prop) n i body (s : A) :
  P i s ->
  (forall j s0, i ≤ j < i + n -> P j s0 ->
     exists s1, body j s0 = Some s1 /\ P (S j) s1) ->
  exists s', for_iter n i body s = Some s' /\ P (i + n) s'.
Proof.
  revert i s. induction n as [|n IH]; intros i s Hs Hbody; simpl.
  - exists s. rewrite Nat.add_0_r. done.
  - destruct (Hbody i s) as (s1 & -> & Hs1); [lia|done|]. simpl.
    destruct (IH (S i) s1) as (s' & Hrun & Hs'); [done| |].
    + intros j s0 Hj. apply Hbody. lia.
    + exists s'. split; [done|]. by replace (i + S n) with (S i + n) by lia.
Qed.

Lemma for_loop_inv (P : nat -> A -> Prop) lo hi body (s : A) :
  lo ≤ hi ->
  P lo s ->
  (forall j s0, lo ≤ j < hi -> P j s0 ->
     exists s1, body j s0 = Some s1 /\ P (S j) s1) ->
  exists s', for_loop lo hi body s = Some s' /\ P hi s'.
Proof.
  intros Hle Hs Hbody. unfold for_loop.
  destruct (for_iter_inv P (hi - lo) lo body s) as (s' & Hrun & Hs'); [done| |].
  - intros j s0 Hj. apply Hbody. lia.
  - exists s'. split; [done|]. by replace hi with (lo + (hi - lo)) by lia.
Qed.

Lemma arr_store_Some (a : list A) i v :
  i < length a -> arr_store a i v = Some (<[i := v]> a).
Proof. intros Hi. unfold arr_store. by rewrite decide_True. Qed.
End LoopLemmas.

Section AccessLemmas.
Context {SIZE : nat} {T : Type}.

Lemma Tuple_at_nat (t : Tuple SIZE T) (i : nat) :
  Tuple_at t (Z.of_nat i) = mm t !! i.
Proof.
  unfold Tuple_at, arr_load. rewrite decide_True by lia. by rewrite Nat2Z.id.
Qed.

Lemma Tuple_at_is_Some (t : Tuple SIZE T) (i : Z) :
  wf t -> (0 ≤ i < Z.of_nat SIZE)%Z -> is_Some (Tuple_at t i).
Proof.
  intros Hwf Hi. unfold Tuple_at, arr_load. rewrite decide_True by lia.
  apply lookup_lt_is_Some. rewrite Hwf. lia.
Qed.

Lemma Tuple_assign_nat (t : Tuple SIZE T) (i : nat) (x : T) :
  i < length (mm t) ->
  Tuple_assign t (Z.of_nat i) x = Some (mkTuple (<[i := x]> (mm t))).
Proof.
  intros Hi. unfold Tuple_assign. rewrite decide_True by lia.
  rewrite Nat2Z.id, arr_store_Some by done. done.
Qed.
End AccessLemmas.

(** ** The converting constructor *)

Section ConvertLemmas.
Context {SIZE src_size : nat} {T src_valtype : Type}.
Context `{!Convertible src_valtype T} `{!Convertible int T}.

(** The array that the two loops leave behind. *)
Lemma Tuple_convert_closed_form (storage : list T) (src : Tuple src_size src_valtype) :
  length storage = SIZE ->
  wf src ->
  Tuple_convert storage src
  = Some (@mkTuple SIZE T ((convert <$> take SIZE (mm src))
                   ++ replicate (SIZE - src_size) (convert (Int32.repr 0)))).
Proof.
  intros Hlen Hsrc. unfold wf in Hsrc. unfold Tuple_convert.
  set (copyEnd := if (SIZE <? src_size)%nat then SIZE else src_size).
  assert (HcopyEnd : copyEnd = SIZE `min` src_size).
  { unfold copyEnd. destruct (Nat.ltb_spec SIZE src_size); lia. }
  destruct (for_loop_inv
    (fun j (m : list T) => length m = SIZE /\
       forall k, k < j -> m !! k = convert <$> (mm src !! k))
    0 copyEnd
    (fun i m => v ← Tuple_at src (Z.of_nat i); arr_store m i (convert v))
    storage) as (m1 & -> & Hm1len & Hm1); [lia| | |].
  { split; [done|]. intros k Hk. lia. }
  { intros j m Hj [Hmlen Hm]. rewrite Tuple_at_nat.
    destruct (lookup_lt_is_Some_2 (mm src) j) as [v Hv]; [rewrite Hsrc; lia|].
    rewrite Hv. simpl. rewrite arr_store_Some by lia.
    eexists; split; [done|]. split; [by rewrite length_insert|].
    intros k Hk. destruct (decide (k = j)) as [->|Hne].
    - rewrite list_lookup_insert_eq by lia. by rewrite Hv.
    - rewrite list_lookup_insert_ne by done. apply Hm. lia. }
  simpl.
  destruct (for_loop_inv
    (fun j (m : list T) => length m = SIZE /\
       (forall k, k < copyEnd -> m !! k = convert <$> (mm src !! k)) /\
       (forall k, copyEnd ≤ k < j -> m !! k = Some (convert (Int32.repr 0))))
    copyEnd SIZE
    (fun i m => arr_store m i (convert (Int32.repr 0)))
    m1) as (m2 & -> & Hm2len & Hm2a & Hm2b); [lia| | |].
  { split; [done|]. split; [done|]. intros k Hk. lia. }
  { intros j m Hj (Hmlen & Hma & Hmb). rewrite arr_store_Some by lia.
    eexists; split; [done|]. split; [by rewrite length_insert|]. split.
    - intros k Hk. rewrite list_lookup_insert_ne by lia. by apply Hma.
    - intros k Hk. destruct (decide (k = j)) as [->|Hne].
      + by rewrite list_lookup_insert_eq by lia.
      + rewrite list_lookup_insert_ne by done. apply Hmb. lia. }
  simpl. do 2 f_equal. apply list_eq. intros k.
  destruct (decide (k < copyEnd)) as [Hk|Hk].
  - rewrite Hm2a by done. rewrite lookup_app_l.
    + rewrite list_lookup_fmap, lookup_take_lt by lia. done.
    + rewrite length_fmap, length_take. lia.
  - rewrite lookup_app_r by (rewrite length_fmap, length_take; lia).
    rewrite length_fmap, length_take, Hsrc, <- HcopyEnd.
    destruct (decide (k < SIZE)) as [Hk'|Hk'].
    + rewrite Hm2b by lia. symmetry. apply lookup_replicate_2. lia.
    + rewrite lookup_ge_None_2 by lia. symmetry. apply lookup_ge_None_2.
      rewrite length_replicate. lia.
Qed.
End ConvertLemmas.

(** X1. The copy constructor returns a tuple equal to its source, whatever
    the storage of the new object held before. *)
Lemma Tuple_copy_spec {SIZE : nat} {T : Type} (storage : list T) (src : Tuple SIZE T) :
  length storage = SIZE -> wf src -> Tuple_copy storage src = Some src.
Proof.
  intros Hlen Hsrc. unfold wf in Hsrc. unfold Tuple_copy.
  destruct (for_loop_inv
    (fun j (m : list T) => length m = SIZE /\
       forall k, k < j -> m !! k = mm src !! k)
    0 SIZE
    (fun i m => v ← arr_load (mm src) i; arr_store m i v)
    storage) as (m & -> & Hmlen & Hm); [lia| | |].
  - split; [done|]. intros k Hk. lia.
  - intros j m Hj [Hmlen Hm]. unfold arr_load.
    destruct (lookup_lt_is_Some_2 (mm src) j) as [v Hv]; [lia|].
    rewrite Hv. simpl. rewrite arr_store_Some by lia.
    eexists; split; [done|]. split; [by rewrite length_insert|].
    intros k Hk. destruct (decide (k = j)) as [->|Hne].
    + rewrite list_lookup_insert_eq by lia. by rewrite Hv.
    + rewrite list_lookup_insert_ne by done. apply Hm. lia.
  - simpl. destruct src as [l]. simpl in *. do 2 f_equal.
    apply list_eq. intros k. destruct (decide (k < SIZE)) as [Hk|Hk].
    + by apply Hm.
    + by rewrite !lookup_ge_None_2 by lia.
Qed.

(** ** Element comparisons *)

Lemma less_irrefl {T} `{ComparableLaws T} (x : T) : less x x = false.
Proof.
  destruct (less x x) eqn:E; [|done]. pose proof (less_asym x x E). congruence.
Qed.

Global Instance int_comparable_laws : ComparableLaws int.
Proof.
  split; simpl; unfold Int32.eq, Int32.gt, Int32.lt.
  - intros x y. apply Z.eqb_sym.
  - intros x y. apply Z.gtb_ltb.
  - intros x y. rewrite Z.ltb_lt. intros. apply Z.ltb_ge. lia.
Qed.

Lemma SFcompare_antisym (x y : double) :
  SFcompare y x = CompOpp <$> SFcompare x y.
Proof.
  destruct x as [sx|sx| |sx mx ex], y as [sy|sy| |sy my ey]; simpl;
    try done; try (by destruct sx); try (by destruct sy);
    try (by destruct sx, sy).
  f_equal.
  assert (Hm : Pos.compare_cont Eq my mx = CompOpp (Pos.compare_cont Eq mx my)).
  { rewrite Pos.compare_cont_antisym. reflexivity. }
  rewrite (Z.compare_antisym ex ey), Hm.
  destruct sx, sy, (ex ?= ey)%Z, (Pos.compare_cont Eq mx my); reflexivity.
Qed.

Global Instance double_comparable_laws : ComparableLaws double.
Proof.
  split; simpl; unfold SFeqb, SFltb, SFgtb; intros x y;
    rewrite (SFcompare_antisym x y); by destruct (SFcompare x y) as [[]|].
Qed.

(** ** The lexicographic comparisons *)

Section Scan.
Context {SIZE : nat} {T0 T1 : Type} `{!Comparable T0 T1}.

Lemma lt_loop_scan n i (t0 : Tuple SIZE T0) (t1 : Tuple SIZE T1) :
  lt_loop n i t0 t1 = scan_loop less n i t0 t1.
Proof.
  revert i. induction n as [|n IH]; intros i; simpl; [done|].
  destruct (Tuple_at t0 _); simpl; [|done].
  destruct (Tuple_at t1 _); simpl; [|done].
  by rewrite IH.
Qed.

Lemma gt_loop_scan n i (t0 : Tuple SIZE T0) (t1 : Tuple SIZE T1) :
  gt_loop n i t0 t1 = scan_loop greater n i t0 t1.
Proof.
  revert i. induction n as [|n IH]; intros i; simpl; [done|].
  destruct (Tuple_at t0 _); simpl; [|done].
  destruct (Tuple_at t1 _); simpl; [|done].
  by rewrite IH.
Qed.

Lemma operator_lt_lex_order (t0 : Tuple SIZE T0) (t1 : Tuple SIZE T1) :
  operator_lt t0 t1 = lex_order less t0 t1.
Proof. unfold operator_lt, lex_order. by rewrite lt_loop_scan. Qed.

Lemma operator_gt_lex_order (t0 : Tuple SIZE T0) (t1 : Tuple SIZE T1) :
  operator_gt t0 t1 = lex_order greater t0 t1.
Proof. unfold operator_gt, lex_order. by rewrite gt_loop_scan. Qed.

(** The scan stops at the first position that is not exactly equal. *)
Lemma scan_loop_first_diff cmp n i0 (t0 : Tuple SIZE T0) (t1 : Tuple SIZE T1) i x y :
  i0 + n ≤ length (mm t0) -> i0 + n ≤ length (mm t1) ->
  i0 ≤ i < i0 + n ->
  mm t0 !! i = Some x -> mm t1 !! i = Some y ->
  isExactlyEqual x y = false ->
  (forall k x' y', i0 ≤ k < i -> mm t0 !! k = Some x' -> mm t1 !! k = Some y' ->
     isExactlyEqual x' y' = true) ->
  scan_loop cmp n i0 t0 t1 = Some (Some (cmp x y)).
Proof.
  revert i0. induction n as [|n IH]; intros i0 H0 H1 Hi Hx Hy Hne Heq; [lia|].
  simpl. rewrite !Tuple_at_nat.
  destruct (lookup_lt_is_Some_2 (mm t0) i0) as [a Ha]; [lia|].
  destruct (lookup_lt_is_Some_2 (mm t1) i0) as [b Hb]; [lia|].
  rewrite Ha, Hb. simpl.
  destruct (decide (i = i0)) as [->|Hii].
  - assert (a = x) by congruence. assert (b = y) by congruence. subst.
    by rewrite Hne.
  - rewrite (Heq i0 a b) by (done || lia). simpl.
    apply IH; try done; try lia. intros k x' y' Hk. apply Heq. lia.
Qed.

(** The scan runs to its end when it meets exactly equal elements only. *)
Lemma scan_loop_all_equal cmp n i0 (t0 : Tuple SIZE T0) (t1 : Tuple SIZE T1) :
  i0 + n ≤ length (mm t0) -> i0 + n ≤ length (mm t1) ->
  (forall k x' y', i0 ≤ k < i0 + n -> mm t0 !! k = Some x' -> mm t1 !! k = Some y' ->
     isExactlyEqual x' y' = true) ->
  scan_loop cmp n i0 t0 t1 = Some None.
Proof.
  revert i0. induction n as [|n IH]; intros i0 H0 H1 Heq; [done|].
  simpl. rewrite !Tuple_at_nat.
  destruct (lookup_lt_is_Some_2 (mm t0) i0) as [a Ha]; [lia|].
  destruct (lookup_lt_is_Some_2 (mm t1) i0) as [b Hb]; [lia|].
  rewrite Ha, Hb. simpl.
  rewrite (Heq i0 a b) by (done || lia). simpl.
  apply IH; try lia. intros k x' y' Hk. apply Heq. lia.
Qed.

(** The scan always comes to a result on well-formed tuples. *)
Lemma scan_loop_total cmp n i0 (t0 : Tuple SIZE T0) (t1 : Tuple SIZE T1) :
  i0 + n ≤ length (mm t0) -> i0 + n ≤ length (mm t1) ->
  is_Some (scan_loop cmp n i0 t0 t1).
Proof.
  revert i0. induction n as [|n IH]; intros i0 H0 H1; [done|].
  simpl. rewrite !Tuple_at_nat.
  destruct (lookup_lt_is_Some_2 (mm t0) i0) as [a Ha]; [lia|].
  destruct (lookup_lt_is_Some_2 (mm t1) i0) as [b Hb]; [lia|].
  rewrite Ha, Hb. simpl.
  destruct (negb (isExactlyEqual a b)); [done|]. apply IH; lia.
Qed.

Lemma lex_order_total cmp (t0 : Tuple SIZE T0) (t1 : Tuple SIZE T1) :
  wf t0 -> wf t1 -> 0 < SIZE -> is_Some (lex_order cmp t0 t1).
Proof.
  unfold wf, lex_order. intros H0 H1 Hpos.
  rewrite decide_False by lia.
  destruct (scan_loop_total cmp (SIZE - 1) 0 t0 t1) as [r Hr]; [lia|lia|].
  rewrite Hr. simpl. destruct r as [b|]; [done|].
  replace (Z.of_nat SIZE - 1)%Z with (Z.of_nat (SIZE - 1)) by lia.
  rewrite !Tuple_at_nat.
  destruct (lookup_lt_is_Some_2 (mm t0) (SIZE - 1)) as [a Ha]; [lia|].
  destruct (lookup_lt_is_Some_2 (mm t1) (SIZE - 1)) as [b Hb]; [lia|].
  by rewrite Ha, Hb.
Qed.

(** What the comparison returns, by the position that decides it. *)
Lemma lex_order_spec cmp (t0 : Tuple SIZE T0) (t1 : Tuple SIZE T1) :
  wf t0 -> wf t1 -> 0 < SIZE ->
  exists r : bool, lex_order cmp t0 t1 = Some r /\
    (forall i x y, i < SIZE - 1 ->
       mm t0 !! i = Some x -> mm t1 !! i = Some y ->
       equal_before t0 t1 i -> isExactlyEqual x y = false ->
       r = cmp x y) /\
    (forall x y, mm t0 !! (SIZE - 1) = Some x -> mm t1 !! (SIZE - 1) = Some y ->
       equal_before t0 t1 (SIZE - 1) ->
       r = cmp x y).
Proof.
  intros H0 H1 Hpos.
  destruct (lex_order_total cmp t0 t1 H0 H1 Hpos) as [r Hr].
  exists r. split; [done|]. unfold wf in *. revert Hr. unfold lex_order.
  rewrite decide_False by lia.
  replace (Z.of_nat SIZE - 1)%Z with (Z.of_nat (SIZE - 1)) by lia.
  intros Hr. split.
  - intros i x y Hi Hx Hy Heq Hne.
    rewrite (scan_loop_first_diff cmp (SIZE - 1) 0 t0 t1 i x y) in Hr;
      try done; try lia.
    + simpl in Hr. congruence.
    + intros k x' y' Hk. apply Heq. lia.
  - intros x y Hx Hy Heq.
    rewrite (scan_loop_all_equal cmp (SIZE - 1) 0 t0 t1) in Hr; try lia.
    + simpl in Hr. rewrite !Tuple_at_nat, Hx, Hy in Hr. simpl in Hr. congruence.
    + intros k x' y' Hk. apply Heq. lia.
Qed.
End Scan.

(** ** The element-wise loop of [TupleAbs] *)

Section AbsLemmas.
Context {SIZE : nat} {T : Type}.

Lemma absVal_loop_spec (f : T -> option T) (storage : list T) (t : Tuple SIZE T) :
  length storage = SIZE ->
  wf t ->
  (forall x, x ∈ mm t -> is_Some (f x)) ->
  exists r : Tuple SIZE T,
    absVal_loop f storage t = Some r /\ wf r /\
    forall i x, mm t !! i = Some x -> mm r !! i = f x.
Proof.
  intros Hlen Hwf Hdef. unfold wf in Hwf. unfold absVal_loop.
  destruct (for_loop_inv
    (fun j (r : Tuple SIZE T) => length (mm r) = SIZE /\
       forall k x, k < j -> mm t !! k = Some x -> mm r !! k = f x)
    0 SIZE
    (fun i result =>
       x ← Tuple_at t (Z.of_nat i);
       y ← f x;
       Tuple_assign result (Z.of_nat i) y)
    (Tuple_default storage)) as (r & Hr & Hrlen & Hrel); [lia| | |].
  - split; [done|]. intros k x Hk. lia.
  - intros j r Hj [Hrlen Hrel]. rewrite Tuple_at_nat.
    destruct (lookup_lt_is_Some_2 (mm t) j) as [x Hx]; [lia|].
    rewrite Hx. simpl.
    destruct (Hdef x) as [y Hy]; [by eapply list_elem_of_lookup_2|].
    rewrite Hy. simpl. rewrite Tuple_assign_nat by lia.
    eexists; split; [done|]. simpl. split; [by rewrite length_insert|].
    intros k x' Hk Hx'. destruct (decide (k = j)) as [->|Hne].
    + rewrite list_lookup_insert_eq by lia. congruence.
    + rewrite list_lookup_insert_ne by done. apply Hrel; [lia|done].
  - exists r. split; [done|]. split; [done|].
    intros i x Hx. apply Hrel; [|done].
    apply lookup_lt_Some in Hx. lia.
Qed.

Lemma Abs_absVal_loop (N : Numeric T) (storage : list T) (t : Tuple SIZE T) :
  Abs storage t = absVal_loop abs_op storage t.
Proof. unfold Abs, abs_op. by destruct N as [[] impl]. Qed.

(** Which specialisation [Abs] instantiates. *)
Lemma Abs_dispatch (N : Numeric T) (storage : list T) (t : Tuple SIZE T) :
  (@is_integral T N = true ->
     exists H : HasAbs T,
       @abs_op T N = @c_abs T H /\
       Abs storage t = @TupleAbs_true_absVal SIZE T H storage t) /\
  (@is_integral T N = false ->
     exists H : HasFabs T,
       @abs_op T N = @c_fabs T H /\
       Abs storage t = @TupleAbs_absVal SIZE T H storage t).
Proof.
  unfold Abs, abs_op. destruct N as [[] impl]; simpl; split; intros ?; try done;
    by exists impl.
Qed.
End AbsLemmas.

Lemma int_abs_spec (x y : int) :
  Int32.abs x = Some y <->
  Int32.intval x ≠ Int32.INT_MIN /\ Int32.intval y = Z.abs (Int32.intval x).
Proof.
  unfold Int32.abs. pose proof (Int32Facts.intval_bounds x) as Hx.
  unfold Int32.INT_MIN, Int32.INT_MAX in *.
  destruct (decide (Int32.intval x = -2147483648)%Z) as [He|Hne].
  - split; [done|]. intros [? _]. done.
  - split.
    + intros [= <-]. split; [done|]. apply Int32Facts.intval_repr.
      unfold Int32.INT_MIN, Int32.INT_MAX. lia.
    + intros [_ Hy]. f_equal. apply Int32Facts.int_eq. rewrite Hy.
      apply Int32Facts.intval_repr. unfold Int32.INT_MIN, Int32.INT_MAX. lia.
Qed.

(** ** [str()] *)

Lemma string_app_assoc (s1 s2 s3 : string) :
  (s1 +:+ s2) +:+ s3 = s1 +:+ (s2 +:+ s3).
Proof.
  induction s1 as [|a s1 IH]; [done|].
  change (String a ((s1 +:+ s2) +:+ s3) = String a (s1 +:+ (s2 +:+ s3))).
  by rewrite IH.
Qed.

Lemma string_app_nil_r (s : string) : s +:+ "" = s.
Proof.
  induction s as [|a s IH]; [done|].
  change (String a (s +:+ "") = String a s). by rewrite IH.
Qed.

Section StrLemmas.
Context {SIZE : nat} {T : Type} `{!Streamable T}.

Lemma separated_snoc (l : list T) (x : T) :
  separated (l ++ [x])
  = (if decide (length l ≠ 0) then separated l ++ [ins_literal ", "] else separated l)
    ++ [ins_value (put x)].
Proof.
  destruct l as [|a l]; simpl; [done|].
  rewrite bind_app. simpl. by rewrite <- !app_assoc.
Qed.

Lemma Tuple_str_buffer_closed_form (t : Tuple SIZE T) :
  wf t ->
  Tuple_str_buffer t
  = Some ([ins_literal "["] ++ separated (mm t) ++ [ins_literal "]"]).
Proof.
  intros Hwf. unfold wf in Hwf. unfold Tuple_str_buffer.
  destruct (for_loop_inv
    (fun j (buffer : ostringstream) =>
       buffer = [ins_literal "["] ++ separated (take j (mm t)))
    0 SIZE
    (fun j buffer =>
       let buffer := if decide (j ≠ 0) then buffer ++ [ins_literal ", "] else buffer in
       x ← arr_load (mm t) j;
       Some (buffer ++ [ins_value (put x)]))
    [ins_literal "["]) as (b & Hb & ->); [lia|done| |].
  - intros j b Hj ->. unfold arr_load.
    destruct (lookup_lt_is_Some_2 (mm t) j) as [x Hx]; [lia|].
    rewrite Hx. simpl. eexists; split; [done|].
    rewrite (take_S_r _ _ _ Hx), separated_snoc, length_take.
    replace (j `min` length (mm t)) with j by lia.
    by destruct (decide (j ≠ 0)).
  - unfold ostringstream in *. cbv zeta in Hb |- *. rewrite Hb. simpl.
    by rewrite (take_ge (mm t) SIZE) by lia.
Qed.

Lemma ostringstream_str_app (b1 b2 : ostringstream) :
  ostringstream_str (b1 ++ b2) = ostringstream_str b1 +:+ ostringstream_str b2.
Proof.
  induction b1 as [|p b1 IH]; simpl; [done|].
  by rewrite IH, string_app_assoc.
Qed.

Lemma ostringstream_str_separated (l : list T) :
  ostringstream_str (separated l) = String.concat ", " (put <$> l).
Proof.
  destruct l as [|x l]; [done|]. revert x.
  induction l as [|y l IH]; intros x; simpl.
  - apply string_app_nil_r.
  - do 2 f_equal. exact (IH y).
Qed.

Lemma Tuple_str_closed_form (t : Tuple SIZE T) :
  wf t ->
  Tuple_str t = Some ("[" +:+ String.concat ", " (put <$> mm t) +:+ "]").
Proof.
  intros Hwf. unfold Tuple_str. rewrite Tuple_str_buffer_closed_form by done.
  simpl. do 2 f_equal.
  rewrite ostringstream_str_app, ostringstream_str_separated. simpl. done.
Qed.

Lemma separators_separated (l : list T) :
  separators (separated l) = length l - 1.
Proof.
  unfold separators, ostringstream. destruct l as [|x l]; [done|].
  unfold separated. rewrite filter_cons_False by discriminate.
  simpl. rewrite Nat.sub_0_r.
  induction l as [|y l IH]; [done|].
  rewrite bind_cons, filter_app, length_app, IH. reflexivity.
Qed.
End StrLemmas.

(** ** Raw binary I/O *)

Lemma chunk_ext {A} (l1 l2 : list A) (o s : nat) :
  (forall j, o ≤ j < o + s -> l1 !! j = l2 !! j) ->
  take s (drop o l1) = take s (drop o l2).
Proof.
  intros H. apply list_eq. intros i. rewrite !lookup_take.
  destruct (decide (i < s)); [|done]. rewrite !lookup_drop. apply H. lia.
Qed.

Section IOLemmas.
Context {T : Type} `{!ObjectRepr T}.

Lemma length_array_of_bytes n (mem : list byte) :
  length (array_of_bytes (T:=T) n mem) = n.
Proof. revert mem. induction n as [|n IH]; intros mem; simpl; [done|]. by rewrite IH. Qed.

Lemma array_of_bytes_lookup n (mem : list byte) i :
  i < n ->
  array_of_bytes (T:=T) n mem !! i
  = Some (of_bytes (take (sizeof T) (drop (i * sizeof T) mem))).
Proof.
  revert mem i. induction n as [|n IH]; intros mem i Hi; [lia|].
  destruct i as [|i]; simpl; [done|].
  rewrite IH by lia. by rewrite drop_drop.
Qed.

Lemma array_bytes_cons (x : T) (a : list T) :
  array_bytes (x :: a) = to_bytes x ++ array_bytes a.
Proof. reflexivity. Qed.

Context `{!ObjectReprLaws T}.

Lemma length_array_bytes (a : list T) :
  length (array_bytes a) = sizeof T * length a.
Proof.
  induction a as [|x a IH]; [simpl; lia|].
  rewrite array_bytes_cons, length_app, IH, to_bytes_length. simpl. lia.
Qed.

Lemma array_bytes_chunk (a : list T) i x :
  a !! i = Some x ->
  take (sizeof T) (drop (i * sizeof T) (array_bytes a)) = to_bytes x.
Proof.
  revert i. induction a as [|y a IH]; intros i Hi; [done|].
  rewrite array_bytes_cons. destruct i as [|i]; simpl in Hi.
  - injection Hi as ->. change (0 * sizeof T) with 0. rewrite drop_0.
    apply take_app_length'. by rewrite to_bytes_length.
  - replace (S i * sizeof T) with (length (to_bytes y) + i * sizeof T)
      by (rewrite to_bytes_length; lia).
    rewrite drop_app_add. by apply IH.
Qed.

(** Decoding the bytes of an array, whatever follows them, gives the
    array back. *)
Lemma array_of_bytes_array_bytes (a : list T) (rest : list byte) :
  array_of_bytes (length a) (array_bytes a ++ rest) = a.
Proof.
  apply list_eq. intros i. destruct (decide (i < length a)) as [Hi|Hi].
  - rewrite array_of_bytes_lookup by done.
    destruct (lookup_lt_is_Some_2 a i Hi) as [x Hx]. rewrite Hx. f_equal.
    rewrite <- (of_to_bytes x), <- (array_bytes_chunk a i x Hx). f_equal.
    apply chunk_ext. intros j Hj. apply lookup_app_l.
    rewrite length_array_bytes. apply lookup_lt_Some in Hx. nia.
  - rewrite !lookup_ge_None_2; [done|lia|rewrite length_array_of_bytes; lia].
Qed.

Lemma array_of_bytes_of_array n (a : list T) (rest : list byte) :
  length a = n -> array_of_bytes n (array_bytes a ++ rest) = a.
Proof. intros <-. apply array_of_bytes_array_bytes. Qed.
End IOLemmas.

Section TupleIOLemmas.
Context {SIZE : nat} {T : Type} `{!ObjectRepr T} `{!ObjectReprLaws T}.

Lemma Tuple_write_closed_form (t : Tuple SIZE T) (os : ostream) :
  wf t -> Tuple_write t os = Some (os ++ array_bytes (mm t)).
Proof.
  intros Hwf. unfold wf in Hwf. unfold Tuple_write, ostream_write.
  pose proof (length_array_bytes (mm t)) as Hlen. rewrite Hwf in Hlen.
  rewrite decide_True by lia. by rewrite take_ge by lia.
Qed.

End TupleIOLemmas.

(** ** The object representation of [int] *)

Lemma Z_of_byte_of_Z (z : Z) : Z_of_byte (byte_of_Z z) = (z mod 256)%Z.
Proof.
  unfold Z_of_byte, byte_of_Z.
  pose proof (Z.mod_pos_bound z 256 eq_refl) as Hz.
  destruct (Byte.of_N (Z.to_N (z mod 256))) as [b|] eqn:E; simpl.
  - apply Byte.to_of_N in E. rewrite E. lia.
  - apply Byte.of_N_None_iff in E. lia.
Qed.

Lemma le_decode_four (u : Z) :
  (0 ≤ u < Int32.modulus)%Z ->
  le_decode [byte_of_Z u; byte_of_Z (u / 256); byte_of_Z (u / 65536);
             byte_of_Z (u / 16777216)] = u.
Proof.
  unfold Int32.modulus. intros Hu. unfold le_decode. cbn [foldr].
  rewrite !Z_of_byte_of_Z.
  pose proof (Z.div_mod u 256 ltac:(lia)) as H0.
  pose proof (Z.div_mod (u / 256) 256 ltac:(lia)) as H1.
  pose proof (Z.div_mod (u / 65536) 256 ltac:(lia)) as H2.
  replace (u / 256 / 256)%Z with (u / 65536)%Z in H1
    by (rewrite Z.div_div by lia; reflexivity).
  replace (u / 65536 / 256)%Z with (u / 16777216)%Z in H2
    by (rewrite Z.div_div by lia; reflexivity).
  assert (Hsmall : (0 ≤ u / 16777216 < 256)%Z).
  { split; [apply Z.div_pos; lia|apply Z.div_lt_upper_bound; lia]. }
  rewrite (Z.mod_small (u / 16777216)) by lia. lia.
Qed.

Lemma wrap_mod (z : Z) :
  (Int32.INT_MIN ≤ z ≤ Int32.INT_MAX)%Z -> Int32.wrap (z mod Int32.modulus) = z.
Proof.
  unfold Int32.wrap, Int32.INT_MIN, Int32.INT_MAX, Int32.modulus. intros Hz.
  destruct (decide (0 ≤ z)%Z) as [Hpos|Hneg].
  - rewrite (Z.mod_small z) by lia. rewrite Z.mod_small by lia. lia.
  - assert (Hm : (z mod 4294967296 = z + 4294967296)%Z).
    { symmetry. apply Z.mod_unique with (-1)%Z; lia. }
    rewrite Hm.
    replace (z + 4294967296 - -2147483648)%Z
      with (z - -2147483648 + 1 * 4294967296)%Z by lia.
    rewrite Z.mod_add by lia. rewrite Z.mod_small by lia. lia.
Qed.

Global Instance int_repr_laws : ObjectReprLaws int.
Proof.
  split.
  - intros x. reflexivity.
  - intros x. apply Int32Facts.int_eq.
    change (Int32.intval (of_bytes (to_bytes x)))
      with (Int32.wrap (le_decode (to_bytes x))).
    unfold to_bytes, int_repr. cbv zeta.
    rewrite le_decode_four by (apply Z.mod_pos_bound; reflexivity).
    apply wrap_mod, Int32Facts.intval_bounds.
Qed.

(** * The claims *)

(** ** Construction and element access *)

(** C1. The converting constructor from a [Tuple<src_size, src_valtype>]
    returns a tuple [dst] of [SIZE] elements in which the first
    [min SIZE src_size] elements are the converted source elements and, when
    [SIZE > src_size], the elements from [src_size] on are the converted
    literal [0]; any source that agrees with [src] on the first [SIZE]
    positions, and any initial contents of the storage, give the same
    tuple, so the source elements past [SIZE] have no effect. *)
Theorem Tuple_convert_spec {SIZE src_size : nat} {T src_valtype : Type}
    `{!Convertible src_valtype T} `{!Convertible int T}
    (storage : list T) (src : Tuple src_size src_valtype) :
  length storage = SIZE ->
  wf src ->
  exists dst : Tuple SIZE T,
    Tuple_convert storage src = Some dst /\ wf dst /\
    (forall i, i < SIZE `min` src_size ->
       exists x, mm src !! i = Some x /\ mm dst !! i = Some (convert x)) /\
    (forall i, src_size ≤ i < SIZE ->
       mm dst !! i = Some (convert (Int32.repr 0))) /\
    (forall (storage' : list T) (src' : Tuple src_size src_valtype),
       length storage' = SIZE -> wf src' ->
       (forall i, i < SIZE -> mm src' !! i = mm src !! i) ->
       Tuple_convert storage' src' = Some dst).
Proof.
  intros Hlen Hsrc. eexists. split; [by apply Tuple_convert_closed_form|].
  unfold wf in *. simpl. repeat split.
  - rewrite length_app, length_fmap, length_take, length_replicate. lia.
  - intros i Hi.
    destruct (lookup_lt_is_Some_2 (mm src) i) as [x Hx]; [lia|].
    exists x. split; [done|].
    rewrite lookup_app_l by (rewrite length_fmap, length_take; lia).
    rewrite list_lookup_fmap, lookup_take_lt by lia. by rewrite Hx.
  - intros i Hi.
    rewrite lookup_app_r by (rewrite length_fmap, length_take; lia).
    apply lookup_replicate_2. rewrite length_fmap, length_take. lia.
  - intros storage' src' Hlen' Hsrc' Hagree.
    rewrite Tuple_convert_closed_form by done. do 4 f_equal.
    apply list_eq. intros i. rewrite !lookup_take.
    destruct (decide (i < SIZE)); [|done]. by apply Hagree.
Qed.

Lemma Tuple_convert_spec_witness :
  exists dst : Tuple 4 double,
    Tuple_convert (replicate 4 S754_nan) T123 = Some dst /\ wf dst.
Proof.
  destruct (Tuple_convert_spec (SIZE:=4) (T:=double) (replicate 4 S754_nan) T123
              eq_refl eq_refl) as (dst & Hrun & Hwf & _).
  exists dst. split; [exact Hrun|exact Hwf].
Defined.

(** C8. An assignment through the mutable [operator[]] at a valid index
    [i] yields a tuple of the same size and element type that holds the new
    value at [i] and the previous value at every other index. *)
Theorem Tuple_assign_frame {SIZE : nat} {T : Type} (t : Tuple SIZE T) (i : Z) (x : T) :
  wf t ->
  (0 ≤ i < Z.of_nat SIZE)%Z ->
  exists t' : Tuple SIZE T,
    Tuple_assign t i x = Some t' /\ wf t' /\
    Tuple_at t' i = Some x /\
    forall j : Z, j ≠ i -> Tuple_at t' j = Tuple_at t j.
Proof.
  intros Hwf Hi. unfold wf in *. unfold Tuple_assign.
  rewrite decide_True by lia. rewrite arr_store_Some by lia. simpl.
  eexists. split; [done|]. unfold wf, Tuple_at, arr_load. simpl. repeat split.
  - by rewrite length_insert.
  - rewrite decide_True by lia. apply list_lookup_insert_eq. lia.
  - intros j Hj. destruct (decide (0 ≤ j)%Z); [|done].
    apply list_lookup_insert_ne. lia.
Qed.

Lemma Tuple_assign_frame_witness :
  exists t' : Tuple 3 int,
    Tuple_assign T123 1 (Int32.repr 7) = Some t' /\ wf t' /\
    Tuple_at t' 1 = Some (Int32.repr 7) /\
    forall j : Z, j ≠ 1%Z -> Tuple_at t' j = Tuple_at T123 j.
Proof.
  apply (Tuple_assign_frame T123 1 (Int32.repr 7)); [reflexivity|lia].
Defined.

(** ** Ordering *)

(** C2. On two tuples of the same size [SIZE >= 1], [operator<] returns
    the element comparison [a[i] < b[i]] at the first position
    [i <= SIZE-2] whose elements are not exactly equal; when all positions
    [0 .. SIZE-2] are exactly equal it returns [a[SIZE-1] < b[SIZE-1]]; and
    when every position is exactly equal it returns [false] (for element
    types on which exactly equal elements are not less). *)
Theorem operator_lt_spec {SIZE : nat} {T0 T1 : Type} `{!Comparable T0 T1}
    (a : Tuple SIZE T0) (b : Tuple SIZE T1) :
  wf a -> wf b -> 0 < SIZE ->
  exists r : bool,
    operator_lt a b = Some r /\
    (forall (i : nat) (x : T0) (y : T1), i < SIZE - 1 ->
       mm a !! i = Some x -> mm b !! i = Some y ->
       equal_before a b i -> isExactlyEqual x y = false ->
       r = less x y) /\
    (forall (x : T0) (y : T1),
       mm a !! (SIZE - 1) = Some x -> mm b !! (SIZE - 1) = Some y ->
       equal_before a b (SIZE - 1) ->
       r = less x y) /\
    ((forall (x : T0) (y : T1), isExactlyEqual x y = true -> less x y = false) ->
     equal_before a b SIZE ->
     r = false).
Proof.
  intros Ha Hb Hpos.
  destruct (lex_order_spec less a b Ha Hb Hpos) as (r & Hr & Hdiff & Hlast).
  exists r. rewrite operator_lt_lex_order. repeat split; try done.
  intros Hirr Heq. unfold wf in *.
  destruct (lookup_lt_is_Some_2 (mm a) (SIZE - 1)) as [x Hx]; [lia|].
  destruct (lookup_lt_is_Some_2 (mm b) (SIZE - 1)) as [y Hy]; [lia|].
  rewrite (Hlast x y Hx Hy).
  - apply Hirr. apply (Heq (SIZE - 1)); [lia|done|done].
  - intros k x' y' Hk. apply Heq. lia.
Qed.

Lemma operator_lt_spec_witness : operator_lt T123 T124 = Some true.
Proof.
  destruct (operator_lt_spec T123 T124 eq_refl eq_refl (Nat.lt_0_succ 2))
    as (r & Hr & _ & Hlast & _).
  rewrite Hr. f_equal.
  apply (Hlast (Int32.repr 3) (Int32.repr 4) eq_refl eq_refl).
  intros k x y Hk Hx Hy.
  destruct k as [|[|k]]; simpl in Hx, Hy; [| |lia];
    injection Hx as <-; injection Hy as <-; reflexivity.
Defined.

Section Asymmetry.
Context {SIZE : nat} {T0 T1 : Type}.
Context (C01 : Comparable T0 T1) (C10 : Comparable T1 T0).

(** The two element types are comparable with each other: [==] does not
    depend on the order of its operands and [<] is asymmetric. *)
Hypothesis equal_swap : forall (x : T0) (y : T1),
  @isExactlyEqual T0 T1 C01 x y = @isExactlyEqual T1 T0 C10 y x.
Hypothesis less_swap : forall (x : T0) (y : T1),
  @less T0 T1 C01 x y = true -> @less T1 T0 C10 y x = false.

Lemma scan_loop_pair n i (a : Tuple SIZE T0) (b : Tuple SIZE T1) r1 r2 :
  scan_loop (@less T0 T1 C01) n i a b = Some r1 ->
  scan_loop (@less T1 T0 C10) n i b a = Some r2 ->
  (r1 = None /\ r2 = None) \/
  (exists x y, r1 = Some (@less T0 T1 C01 x y) /\ r2 = Some (@less T1 T0 C10 y x)).
Proof.
  revert i. induction n as [|n IH]; intros i; simpl.
  - intros [= <-] [= <-]. by left.
  - destruct (Tuple_at a (Z.of_nat i)) as [x|]; simpl; [|done].
    destruct (Tuple_at b (Z.of_nat i)) as [y|]; simpl; [|done].
    rewrite <- (equal_swap x y).
    destruct (isExactlyEqual x y); simpl.
    + apply IH.
    + intros [= <-] [= <-]. right. by exists x, y.
Qed.

(** C5. On two tuples of the same size, [a < b] and [b < a] both return
    and are never both true. *)
Theorem operator_lt_asymmetric (a : Tuple SIZE T0) (b : Tuple SIZE T1) :
  wf a -> wf b -> 0 < SIZE ->
  exists r1 r2 : bool,
    operator_lt a b = Some r1 /\ operator_lt b a = Some r2 /\
    ~ (r1 = true /\ r2 = true).
Proof.
  intros Ha Hb Hpos.
  destruct (lex_order_total (@less T0 T1 C01) a b Ha Hb Hpos) as [r1 H1].
  destruct (lex_order_total (@less T1 T0 C10) b a Hb Ha Hpos) as [r2 H2].
  exists r1, r2. rewrite !operator_lt_lex_order. split; [done|]. split; [done|].
  revert H1 H2. unfold lex_order. rewrite !decide_False by lia.
  destruct (scan_loop less (SIZE - 1) 0 a b) as [s1|] eqn:E1; simpl; [|done].
  destruct (scan_loop less (SIZE - 1) 0 b a) as [s2|] eqn:E2; simpl; [|done].
  destruct (scan_loop_pair _ _ _ _ _ _ E1 E2) as [[-> ->]|(x & y & -> & ->)].
  - destruct (Tuple_at a _) as [x|]; simpl; [|done].
    destruct (Tuple_at b _) as [y|]; simpl; [|done].
    intros [= <-] [= <-] [Hxy Hyx]. apply less_swap in Hxy. congruence.
  - intros [= <-] [= <-] [Hxy Hyx]. apply less_swap in Hxy. congruence.
Qed.
End Asymmetry.

Lemma operator_lt_asymmetric_witness :
  exists r1 r2 : bool,
    operator_lt T123 T124 = Some r1 /\ operator_lt T124 T123 = Some r2 /\
    ~ (r1 = true /\ r2 = true).
Proof.
  apply (operator_lt_asymmetric int_comparable int_comparable).
  - intros x y. apply isExactlyEqual_sym.
  - intros x y. apply less_asym.
  - reflexivity.
  - reflexivity.
  - lia.
Defined.

Section Mirror.
Context {SIZE : nat} {T : Type} `{!Comparable T T} `{!ComparableLaws T}.

Lemma scan_loop_swap n i (a b : Tuple SIZE T) :
  scan_loop greater n i a b = scan_loop less n i b a.
Proof.
  revert i. induction n as [|n IH]; intros i; simpl; [done|].
  destruct (Tuple_at a (Z.of_nat i)) as [x|], (Tuple_at b (Z.of_nat i)) as [y|];
    simpl; try done.
  by rewrite (isExactlyEqual_sym y x), (greater_less x y), IH.
Qed.

(** C9. On two tuples of the same size and element type, [a > b] returns
    what [b < a] returns; [operator<] and [operator>] are one scan, over
    the same positions with the same exact-equality test, instantiated
    with [<] and with [>]. *)
Theorem operator_gt_mirror (a b : Tuple SIZE T) :
  wf a -> wf b -> 0 < SIZE ->
  (exists r : bool, operator_gt a b = Some r /\ operator_lt b a = Some r) /\
  (forall a' b' : Tuple SIZE T,
     operator_lt a' b' = lex_order less a' b' /\
     operator_gt a' b' = lex_order greater a' b').
Proof.
  intros Ha Hb Hpos. split.
  - destruct (lex_order_total greater a b Ha Hb Hpos) as [r Hr].
    exists r. rewrite operator_gt_lex_order, operator_lt_lex_order.
    split; [done|]. rewrite <- Hr. unfold lex_order.
    rewrite !decide_False by lia. rewrite scan_loop_swap.
    destruct (scan_loop less (SIZE - 1) 0 b a) as [[r'|]|]; simpl; try done.
    destruct (Tuple_at a _) as [x|], (Tuple_at b _) as [y|]; simpl; try done.
    by rewrite greater_less.
  - intros a' b'. split; [apply operator_lt_lex_order|apply operator_gt_lex_order].
Qed.
End Mirror.

Lemma operator_gt_mirror_witness :
  operator_gt T124 T123 = Some true /\ operator_lt T123 T124 = Some true.
Proof.
  destruct (operator_gt_mirror T124 T123 eq_refl eq_refl (Nat.lt_0_succ 2))
    as [(r & Hgt & Hlt) _].
  split; [reflexivity|]. rewrite Hlt, <- Hgt. reflexivity.
Defined.

(** ** Absolute value *)

(** C3, amended. When the absolute value of every element of [t] is defined
    (for [int]: no element is [INT_MIN]), [Abs] returns a tuple of the
    same size and type whose element [i] is the absolute value of [t[i]].
    The operation is the one that [is_integral] selects at instantiation:
    [::abs] through the integer specialisation of [TupleAbs] for an integer
    type such as [int], where it is [|x|] exactly when [x] is not
    [INT_MIN]; [::fabs] through the primary template otherwise, as for
    [double].  The [int] tuple [{-1, 2, -3}] maps to [{1, 2, 3}]. *)
Theorem Abs_spec {SIZE : nat} {T : Type} (N : Numeric T)
    (storage : list T) (t : Tuple SIZE T) :
  length storage = SIZE ->
  wf t ->
  (forall x : T, x ∈ mm t -> is_Some (@abs_op T N x)) ->
  (exists r : Tuple SIZE T,
     Abs storage t = Some r /\ wf r /\
     forall (i : nat) (x : T), mm t !! i = Some x -> mm r !! i = @abs_op T N x) /\
  (@is_integral T N = true ->
     exists H : HasAbs T,
       @abs_op T N = @c_abs T H /\
       Abs storage t = @TupleAbs_true_absVal SIZE T H storage t) /\
  (@is_integral T N = false ->
     exists H : HasFabs T,
       @abs_op T N = @c_fabs T H /\
       Abs storage t = @TupleAbs_absVal SIZE T H storage t) /\
  (@is_integral int _ = true /\
   forall x y : int,
     abs_op x = Some y <->
     Int32.intval x ≠ Int32.INT_MIN /\ Int32.intval y = Z.abs (Int32.intval x)) /\
  (@is_integral double _ = false /\
   forall x : double, abs_op x = Some (SFabs x)) /\
  Abs (mm T000) (ints [-1; 2; -3]%Z : Tuple 3 int) = Some T123.
Proof.
  intros Hlen Hwf Hdef. split; [|split; [|split; [|split; [|split]]]].
  - rewrite Abs_absVal_loop. by apply absVal_loop_spec.
  - apply Abs_dispatch.
  - apply Abs_dispatch.
  - split; [done|]. apply int_abs_spec.
  - split; done.
  - reflexivity.
Qed.

Lemma Abs_spec_witness :
  exists r : Tuple 3 int,
    Abs (mm T000) (ints [-5; 0; 5]%Z : Tuple 3 int) = Some r /\ wf r /\
    forall (i : nat) (x : int),
      mm (ints [-5; 0; 5]%Z : Tuple 3 int) !! i = Some x -> mm r !! i = abs_op x.
Proof.
  apply (Abs_spec int_numeric (mm T000) (ints [-5; 0; 5]%Z : Tuple 3 int)).
  - reflexivity.
  - reflexivity.
  - intros x Hx. apply list_elem_of_lookup in Hx as [i Hi].
    destruct i as [|[|[|i]]]; simpl in Hi; try discriminate;
      injection Hi as <-; eexists; reflexivity.
Defined.

(** The claim C3 as it is stated fails on the [int] tuple
    [{INT_MIN, 2, -3}]: [::abs(INT_MIN)] is undefined, and no [int] is
    [|INT_MIN|], so no tuple of [int] holds the claimed result. *)
Lemma Abs_INT_MIN_counterexample :
  let t : Tuple 3 int := ints [-2147483648; 2; -3]%Z in
  Abs (mm T000) t = None /\
  ~ exists r : Tuple 3 int,
      forall (i : nat) (x : int), mm t !! i = Some x ->
        exists y : int, mm r !! i = Some y /\ Int32.intval y = Z.abs (Int32.intval x).
Proof.
  split; [reflexivity|].
  intros [r Hr]. destruct (Hr 0 (Int32.repr (-2147483648)) eq_refl) as (y & _ & Hy).
  pose proof (Int32Facts.intval_bounds y) as Hb.
  unfold Int32.INT_MIN, Int32.INT_MAX in Hb.
  change (Z.abs (Int32.intval (Int32.repr (-2147483648)))) with 2147483648%Z in Hy.
  lia.
Qed.

(** ** Formatting *)

(** C6, amended. [str()] returns ["["], the texts of the elements in
    index order separated by [", "], and ["]"]; the [int] tuple [1, 2, 3]
    formats as ["[1, 2, 3]"].  [operator<<] hands that string to a
    formatted insertion: a good stream whose field width is not larger than
    the string (the initial width 0 is not) receives exactly the string; a
    good stream with a larger width receives the string padded with the
    fill character to that width; a stream that is not good receives
    nothing. *)
Theorem Tuple_str_format {SIZE : nat} {T : Type} `{!Streamable T}
    (t : Tuple SIZE T) (ostr : text_ostream) :
  wf t ->
  Tuple_str t = Some ("[" +:+ String.concat ", " (put <$> mm t) +:+ "]") /\
  (exists s : string,
     Tuple_str t = Some s /\
     (os_good ostr = true -> os_width ostr ≤ String.length s ->
      exists ostr' : text_ostream,
        operator_shl ostr t = Some (returns ostr') /\
        os_sink ostr' = os_sink ostr ++ list_byte_of_string s /\
        string_of_list_byte (drop (length (os_sink ostr)) (os_sink ostr')) = s) /\
     (os_good ostr = true -> String.length s < os_width ostr ->
      exists ostr' : text_ostream,
        operator_shl ostr t = Some (returns ostr') /\
        os_sink ostr'
        = os_sink ostr ++
          (if os_left ostr
           then list_byte_of_string s
                ++ replicate (os_width ostr - String.length s) (os_fill ostr)
           else replicate (os_width ostr - String.length s) (os_fill ostr)
                ++ list_byte_of_string s)) /\
     (os_good ostr = false ->
      exists o : outcome text_ostream,
        operator_shl ostr t = Some o /\
        os_sink (outcome_state o) = os_sink ostr)) /\
  Tuple_str T123 = Some "[1, 2, 3]".
Proof.
  intros Hwf. split; [by apply Tuple_str_closed_form|]. split; [|reflexivity].
  unfold operator_shl. rewrite Tuple_str_closed_form by done.
  generalize ("[" +:+ String.concat ", " (put <$> mm t) +:+ "]"). intros str. simpl.
  exists str. split; [done|]. unfold ostream_insert. split; [|split].
  - intros Hgood Hwidth. rewrite Hgood. eexists. split; [done|]. simpl.
    replace (os_width ostr - String.length str) with 0 by lia. simpl.
    destruct (os_left ostr); rewrite ?app_nil_r; (split; [done|]);
      by rewrite drop_app_length, string_of_list_byte_of_string.
  - intros Hgood Hwidth. rewrite Hgood. eexists. split; [done|]. done.
  - intros Hgood. rewrite Hgood. eexists. split; [done|].
    unfold raise_if. by destruct (iostate_meets _ _).
Qed.

Lemma Tuple_str_format_witness :
  Tuple_str T124 = Some "[1, 2, 4]" /\
  exists ostr' : text_ostream,
    operator_shl ostr0 T124 = Some (returns ostr') /\
    string_of_list_byte (os_sink ostr') = "[1, 2, 4]".
Proof.
  destruct (Tuple_str_format T124 ostr0 eq_refl) as (Hstr & (s & Hs & Hexact & _) & _).
  split; [rewrite Hstr; reflexivity|].
  assert (s = "[1, 2, 4]") as -> by (rewrite Hstr in Hs; by injection Hs).
  destruct (Hexact eq_refl ltac:(simpl; lia)) as (ostr' & Hrun & _ & Hsink).
  exists ostr'. split; [exact Hrun|exact Hsink].
Defined.

(** The claim C6 as it is stated fails on a stream with field width 12:
    [operator<<] inserts three fill characters before ["[1, 2, 3]"]. *)
Lemma operator_shl_width_counterexample :
  Tuple_str T123 = Some "[1, 2, 3]" /\
  exists ostr' : text_ostream,
    operator_shl ostr12 T123 = Some (returns ostr') /\
    string_of_list_byte (os_sink ostr') = "   [1, 2, 3]" /\
    string_of_list_byte (os_sink ostr') ≠ "[1, 2, 3]".
Proof.
  split; [reflexivity|]. eexists. split; [reflexivity|]. split; [reflexivity|].
  discriminate.
Qed.

(** C10. For [SIZE >= 1], [str()] inserts ["["], the first element, then
    for each further element [", "] and the element, then ["]"]: [", "] is
    inserted [SIZE - 1] times, the insertion after ["["] and the one before
    ["]"] are elements; for [SIZE = 1] the string is ["["], the text of the
    element, ["]"]. *)
Theorem Tuple_str_separators {SIZE : nat} {T : Type} `{!Streamable T}
    (t : Tuple SIZE T) :
  wf t -> 0 < SIZE ->
  exists (e0 eN : T) (rest : list T) (buffer : ostringstream),
    mm t = e0 :: rest /\ last (mm t) = Some eN /\
    Tuple_str_buffer t = Some buffer /\
    Tuple_str t = Some (ostringstream_str buffer) /\
    buffer = ins_literal "[" :: ins_value (put e0)
               :: (rest ≫= fun y => [ins_literal ", "; ins_value (put y)])
               ++ [ins_literal "]"] /\
    separators buffer = SIZE - 1 /\
    buffer !! 1 = Some (ins_value (put e0)) /\
    buffer !! (length buffer - 2) = Some (ins_value (put eN)) /\
    (SIZE = 1 -> Tuple_str t = Some ("[" +:+ put e0 +:+ "]")).
Proof.
  intros Hwf Hpos.
  pose proof (Tuple_str_buffer_closed_form t Hwf) as Hbuf.
  pose proof (Tuple_str_closed_form t Hwf) as Hstr.
  unfold wf in Hwf.
  destruct (mm t) as [|e0 rest] eqn:Hmm; [simpl in Hwf; lia|].
  destruct (last_is_Some (e0 :: rest)) as [_ [eN HeN]]; [done|].
  exists e0, eN, rest. eexists. split; [done|]. split; [done|].
  split; [exact Hbuf|]. split; [unfold Tuple_str; by rewrite Hbuf|].
  split; [done|]. split; [|split; [done|split]].
  - change (separators ([ins_literal "["] ++ separated (e0 :: rest) ++ [ins_literal "]"])
            = SIZE - 1).
    unfold separators, ostringstream. rewrite !filter_app, !length_app.
    pose proof (separators_separated (e0 :: rest)) as Hsep.
    unfold separators, ostringstream in Hsep. rewrite Hsep, Hwf. simpl. lia.
  - apply last_Some in HeN as [l' Hl'].
    change (([ins_literal "["] ++ separated (e0 :: rest) ++ [ins_literal "]"])
              !! (length ([ins_literal "["] ++ separated (e0 :: rest) ++ [ins_literal "]"]) - 2)
            = Some (ins_value (put eN))).
    rewrite Hl', separated_snoc.
    set (X := if decide (length l' ≠ 0) then separated l' ++ [ins_literal ", "]
              else separated l').
    rewrite !length_app. simpl.
    replace (length X + 1 + 1 - 1) with (S (length X)) by lia.
    rewrite <- app_assoc. simpl. apply list_lookup_middle. done.
  - intros ->. destruct rest; [|simpl in Hwf; lia]. exact Hstr.
Qed.

Lemma Tuple_str_separators_witness :
  exists buffer : ostringstream,
    Tuple_str_buffer T123 = Some buffer /\ separators buffer = 2.
Proof.
  destruct (Tuple_str_separators T123 eq_refl (Nat.lt_0_succ 2))
    as (e0 & eN & rest & buffer & _ & _ & Hbuf & _ & _ & Hsep & _).
  exists buffer. split; [exact Hbuf|exact Hsep].
Defined.

(** ** Raw binary I/O *)

(** C4. [write] appends the [sizeof(T) * SIZE] bytes of [t] to the stream,
    and a [read] of those bytes (whatever follows them) into any tuple
    [dst] of the same size and element type gives [t] back, leaving the
    stream good. *)
Theorem Tuple_write_read_roundtrip {SIZE : nat} {T : Type}
    `{!ObjectRepr T} `{!ObjectReprLaws T}
    (t dst : Tuple SIZE T) (os : ostream) (rest : list byte) :
  wf t -> wf dst ->
  exists (os' : ostream) (istr' : istream),
    Tuple_write t os = Some os' /\
    length os' = length os + sizeof T * SIZE /\
    Tuple_read dst (mkIstream (drop (length os) os' ++ rest) false false false)
      = Some (t, istr') /\
    good istr' = true /\ is_data istr' = rest.
Proof.
  intros Ht Hdst.
  pose proof (length_array_bytes (mm t)) as Hlt.
  pose proof (length_array_bytes (mm dst)) as Hld.
  unfold wf in *. rewrite Ht in Hlt. rewrite Hdst in Hld.
  rewrite Tuple_write_closed_form by done.
  eexists _, _. split; [done|]. split; [rewrite length_app; lia|].
  rewrite drop_app_length.
  unfold Tuple_read, istream_read. rewrite decide_True by lia. simpl.
  rewrite take_app_length' by lia. rewrite Hlt.
  rewrite drop_app_length' by lia.
  rewrite (drop_ge (array_bytes (mm dst))) by lia.
  rewrite bool_decide_eq_false_2 by lia.
  rewrite (array_of_bytes_of_array SIZE (mm t) []) by done.
  destruct t as [m]. simpl. done.
Qed.

Lemma Tuple_write_read_roundtrip_witness :
  exists (os' : ostream) (istr' : istream),
    Tuple_write (ints [1; -2; 3]%Z : Tuple 3 int) [] = Some os' /\
    length os' = 12 /\
    Tuple_read T000 (mkIstream (os' ++ []) false false false)
      = Some (ints [1; -2; 3]%Z : Tuple 3 int, istr') /\
    good istr' = true /\ is_data istr' = [].
Proof.
  exact (Tuple_write_read_roundtrip (ints [1; -2; 3]%Z : Tuple 3 int) T000 [] []
           eq_refl eq_refl).
Defined.






(** * Further properties *)

(** ** Loops that leave the array *)

Lemma for_iter_None {A : Type} (P : nat -> A -> Prop) n i k body (s : A) :
  P i s ->
  (forall j s0, i ≤ j < i + n -> P j s0 ->
     body j s0 = None \/ exists s1, body j s0 = Some s1 /\ P (S j) s1) ->
  i ≤ k < i + n ->
  (forall s0, P k s0 -> body k s0 = None) ->
  for_iter n i body s = None.
Proof.
  revert i s. induction n as [|n IH]; intros i s Hs Hstep Hk Hfail; [lia|].
  simpl. destruct (decide (i = k)) as [->|Hne].
  - by rewrite (Hfail s Hs).
  - destruct (Hstep i s) as [->|(s1 & -> & Hs1)]; [lia|done|done|]. simpl.
    apply IH; try done; try lia. intros j s0 Hj. apply Hstep. lia.
Qed.

(** ** Construction and element access *)

Lemma Tuple_copy_spec_witness : Tuple_copy (mm T000) T123 = Some T123.
Proof. exact (Tuple_copy_spec (mm T000) T123 eq_refl eq_refl). Defined.

(** X2. On a tuple, [operator[]] and an assignment through it are defined
    exactly at the indices [0 <= i < SIZE]: a negative index or one from
    [SIZE] on leaves the array. *)
Theorem Tuple_index_defined_iff {SIZE : nat} {T : Type}
    (t : Tuple SIZE T) (i : Z) (x : T) :
  wf t ->
  (is_Some (Tuple_at t i) <-> (0 ≤ i < Z.of_nat SIZE)%Z) /\
  (is_Some (Tuple_assign t i x) <-> (0 ≤ i < Z.of_nat SIZE)%Z).
Proof.
  intros Hwf. unfold wf in Hwf. unfold Tuple_at, Tuple_assign, arr_load, arr_store.
  destruct (decide (0 ≤ i)%Z) as [Hi|Hi].
  - rewrite lookup_lt_is_Some. split; [lia|].
    destruct (decide (Z.to_nat i < length (mm t))); simpl.
    + split; [lia|]. intros _. by eexists.
    + split; [by intros [? ?]|lia].
  - split; (split; [by intros [? ?]|lia]).
Qed.

Lemma Tuple_index_defined_iff_witness :
  (is_Some (Tuple_at T123 3) <-> (0 ≤ 3 < 3)%Z) /\
  (is_Some (Tuple_assign T123 3 (Int32.repr 0)) <-> (0 ≤ 3 < 3)%Z).
Proof. exact (Tuple_index_defined_iff T123 3 (Int32.repr 0) eq_refl). Defined.

(** X3. Of two assignments to the same valid index the second one wins, and
    assignments to two different valid indices can be swapped. *)
Theorem Tuple_assign_assign {SIZE : nat} {T : Type}
    (t : Tuple SIZE T) (i j : Z) (x y : T) :
  wf t ->
  (0 ≤ i < Z.of_nat SIZE)%Z -> (0 ≤ j < Z.of_nat SIZE)%Z ->
  (t1 ← Tuple_assign t i x; Tuple_assign t1 i y) = Tuple_assign t i y /\
  (i ≠ j ->
   (t1 ← Tuple_assign t i x; Tuple_assign t1 j y)
   = (t1 ← Tuple_assign t j y; Tuple_assign t1 i x)).
Proof.
  intros Hwf Hi Hj. unfold wf in Hwf. unfold Tuple_assign.
  rewrite !decide_True by lia.
  rewrite !arr_store_Some by lia. simpl.
  rewrite !arr_store_Some by (rewrite length_insert; lia). simpl.
  rewrite !decide_True by lia. split.
  - by rewrite list_insert_insert_eq.
  - intros Hne. do 2 f_equal. apply list_insert_insert_ne. lia.
Qed.

Lemma Tuple_assign_assign_witness :
  (t1 ← Tuple_assign T123 0 (Int32.repr 7); Tuple_assign t1 0 (Int32.repr 9))
  = Tuple_assign T123 0 (Int32.repr 9).
Proof.
  exact (proj1 (Tuple_assign_assign T123 0 2 (Int32.repr 7) (Int32.repr 9)
                  eq_refl ltac:(lia) ltac:(lia))).
Defined.

(** ** [toV] and [asV] *)

Section ToV.
Context {SIZE : nat} {T S : Type} `{!Convertible T S}.

Lemma Tuple_toV_closed_form (t : Tuple SIZE T) (v : list S) :
  wf t -> SIZE ≤ length v ->
  Tuple_toV t v = Some ((convert <$> mm t) ++ drop SIZE v).
Proof.
  intros Hwf Hcap. unfold wf in Hwf. unfold Tuple_toV.
  destruct (for_loop_inv
    (fun j (w : list S) => length w = length v /\
       (forall k, k < j -> w !! k = convert <$> (mm t !! k)) /\
       (forall k, j ≤ k -> w !! k = v !! k))
    0 SIZE
    (fun i v => x ← arr_load (mm t) i; arr_store v i (convert x))
    v) as (w & -> & Hwlen & Hlow & Hhigh); [lia| | |].
  - split; [done|]. split; [intros k Hk; lia|done].
  - intros j w Hj (Hwlen & Hlow & Hhigh). unfold arr_load.
    destruct (lookup_lt_is_Some_2 (mm t) j) as [x Hx]; [lia|].
    rewrite Hx. simpl. rewrite arr_store_Some by lia.
    eexists; split; [done|]. split; [by rewrite length_insert|]. split.
    + intros k Hk. destruct (decide (k = j)) as [->|Hne].
      * rewrite list_lookup_insert_eq by lia. by rewrite Hx.
      * rewrite list_lookup_insert_ne by done. apply Hlow. lia.
    + intros k Hk. rewrite list_lookup_insert_ne by lia. apply Hhigh. lia.
  - f_equal. apply list_eq. intros k. destruct (decide (k < SIZE)) as [Hk|Hk].
    + rewrite Hlow by done. rewrite lookup_app_l by (rewrite length_fmap; lia).
      by rewrite list_lookup_fmap.
    + rewrite Hhigh by lia. rewrite lookup_app_r by (rewrite length_fmap; lia).
      rewrite length_fmap, lookup_drop. f_equal. lia.
Qed.

(** X4. Given room for [SIZE] elements, [toV] stores the converted elements
    of the tuple in the first [SIZE] places of the array, in order, and
    leaves the length of the array and every later place as they were. *)
Theorem Tuple_toV_spec (t : Tuple SIZE T) (v : list S) :
  wf t -> SIZE ≤ length v ->
  exists v' : list S,
    Tuple_toV t v = Some v' /\ length v' = length v /\
    (forall (i : nat) (x : T), mm t !! i = Some x -> v' !! i = Some (convert x)) /\
    (forall i : nat, SIZE ≤ i -> v' !! i = v !! i).
Proof.
  intros Hwf Hcap. rewrite Tuple_toV_closed_form by done. unfold wf in Hwf.
  eexists. split; [done|]. split; [|split].
  - rewrite length_app, length_fmap, length_drop. lia.
  - intros i x Hx. rewrite lookup_app_l.
    + by rewrite list_lookup_fmap, Hx.
    + rewrite length_fmap. by eapply lookup_lt_Some.
  - intros i Hi. rewrite lookup_app_r by (rewrite length_fmap; lia).
    rewrite length_fmap, lookup_drop. f_equal. lia.
Qed.

(** X5. [toV] leaves the caller's array, and is undefined, exactly when the
    array has fewer than [SIZE] places. *)
Theorem Tuple_toV_None_iff (t : Tuple SIZE T) (v : list S) :
  wf t -> (Tuple_toV t v = None <-> length v < SIZE).
Proof.
  intros Hwf. split.
  - intros Hnone. destruct (decide (length v < SIZE)) as [|Hge]; [done|].
    rewrite Tuple_toV_closed_form in Hnone by (done || lia). done.
  - intros Hshort. unfold wf in Hwf. unfold Tuple_toV, for_loop.
    apply (for_iter_None (fun _ (w : list S) => length w = length v)
             (SIZE - 0) 0 (length v)); [done| |lia|].
    + intros j w Hj Hw. unfold arr_load.
      destruct (mm t !! j) as [x|]; simpl; [|by left].
      unfold arr_store. destruct (decide (j < length w)); [|by left].
      right. eexists. split; [done|]. by rewrite length_insert.
    + intros w Hw. unfold arr_load.
      destruct (mm t !! length v) as [x|]; simpl; [|done].
      unfold arr_store. rewrite decide_False by lia. done.
Qed.
End ToV.

Lemma Tuple_toV_spec_witness :
  exists v' : list double,
    Tuple_toV T123 (replicate 5 S754_nan) = Some v' /\ length v' = 5.
Proof.
  destruct (Tuple_toV_spec T123 (replicate 5 S754_nan) eq_refl ltac:(simpl; lia))
    as (v' & Hrun & Hlen & _).
  exists v'. split; [exact Hrun|exact Hlen].
Defined.

Lemma Tuple_toV_None_iff_witness :
  Tuple_toV T123 (replicate 2 (Int32.repr 0)) = None.
Proof.
  apply (proj2 (Tuple_toV_None_iff T123 (replicate 2 (Int32.repr 0)) eq_refl)).
  simpl. lia.
Defined.

(** X6. Copied with [toV] into an array of [SIZE] elements of its own type,
    a tuple gives the array that [asV] exposes. *)
Theorem Tuple_toV_asV {SIZE : nat} {T : Type} `{!Convertible T T}
    (t : Tuple SIZE T) (v : list T) :
  (forall x : T, convert x = x) ->
  wf t -> length v = SIZE ->
  Tuple_toV t v = Some (Tuple_asV t).
Proof.
  intros Hid Hwf Hlen. rewrite Tuple_toV_closed_form by (done || lia).
  rewrite drop_ge by lia. rewrite app_nil_r. unfold Tuple_asV. f_equal.
  rewrite <- (list_fmap_id (mm t)) at 2. apply list_fmap_ext. intros _ x _. apply Hid.
Qed.

Lemma Tuple_toV_asV_witness : Tuple_toV T123 (mm T000) = Some (Tuple_asV T123).
Proof. exact (Tuple_toV_asV T123 (mm T000) (fun x => eq_refl) eq_refl eq_refl). Defined.

(** ** Conversions in sequence *)

(** The element at [i] of the array that the converting constructor builds. *)
Lemma convert_form_lookup {U V : Type} (f : U -> V) (z : V) (K : nat) (l : list U) i :
  ((f <$> take K l) ++ replicate (K - length l) z) !! i
  = if decide (i < K)
    then if decide (i < length l) then f <$> (l !! i) else Some z
    else None.
Proof.
  destruct (decide (i < K)) as [HK|HK].
  - destruct (decide (i < length l)) as [Hl|Hl].
    + rewrite lookup_app_l by (rewrite length_fmap, length_take; lia).
      by rewrite list_lookup_fmap, lookup_take_lt by lia.
    + rewrite lookup_app_r by (rewrite length_fmap, length_take; lia).
      apply lookup_replicate_2. rewrite length_fmap, length_take. lia.
  - apply lookup_ge_None_2.
    rewrite length_app, length_fmap, length_take, length_replicate. lia.
Qed.

Section ConvertCompose.
Context {M N K : nat} {U T V : Type}.
Context (cUT : Convertible U T) (cTV : Convertible T V) (cUV : Convertible U V).
Context (zT : Convertible int T) (zV : Convertible int V).

(** Converting in two steps converts each element as the direct conversion
    does, and a converted zero is a zero. *)
Hypothesis convert_compose : forall x : U,
  @convert T V cTV (@convert U T cUT x) = @convert U V cUV x.
Hypothesis convert_zero :
  @convert T V cTV (@convert int T zT (Int32.repr 0)) = @convert int V zV (Int32.repr 0).

(** X8. Converting a size-[M] tuple to size [N] and the result to size
    [K] gives what the direct conversion to size [K] gives, provided the
    middle size [N] is at least [min K M]: widening first loses nothing. *)
Theorem Tuple_convert_convert (st1 : list T) (st2 : list V) (src : Tuple M U) :
  K `min` M ≤ N ->
  length st1 = N -> length st2 = K -> wf src ->
  exists (mid : Tuple N T) (dst : Tuple K V),
    @Tuple_convert N T M U cUT zT st1 src = Some mid /\
    @Tuple_convert K V N T cTV zV st2 mid = Some dst /\
    @Tuple_convert K V M U cUV zV st2 src = Some dst.
Proof.
  intros Hmid H1 H2 Hwf.
  rewrite !Tuple_convert_closed_form by done. eexists _, _. split; [done|].
  rewrite Tuple_convert_closed_form;
    [|done|unfold wf in *; simpl;
      rewrite length_app, length_fmap, length_take, length_replicate; lia].
  split; [done|]. unfold wf in Hwf. simpl. do 2 f_equal.
  apply list_eq. intros i.
  replace (K - N) with
    (K - length ((@convert U T cUT <$> take N (mm src))
                 ++ replicate (N - M) (@convert int T zT (Int32.repr 0))))
    by (rewrite length_app, length_fmap, length_take, length_replicate; lia).
  replace (K - M) with (K - length (mm src)) by lia.
  replace (N - M) with (N - length (mm src)) by lia.
  rewrite !convert_form_lookup.
  rewrite length_app, length_fmap, length_take, length_replicate.
  destruct (decide (i < K)) as [HK|HK]; [|done].
  replace (N `min` length (mm src) + (N - length (mm src))) with N by lia.
  destruct (decide (i < N)) as [HN|HN].
  - destruct (decide (i < length (mm src))) as [HM|HM].
    + destruct (mm src !! i) as [x|]; simpl; [|done]. by rewrite convert_compose.
    + simpl. by rewrite convert_zero.
  - destruct (decide (i < length (mm src))) as [HM|HM]; [lia|done].
Qed.

(** X9. Narrowing a size-[M] tuple to [N <= M] elements and converting the
    result to size [K >= N] gives the first [N] converted elements followed
    by zeros: the source elements from [N] on are lost. *)
Theorem Tuple_convert_narrow_widen (st1 : list T) (st2 : list V) (src : Tuple M U) :
  N ≤ M -> N ≤ K ->
  length st1 = N -> length st2 = K -> wf src ->
  exists mid : Tuple N T,
    @Tuple_convert N T M U cUT zT st1 src = Some mid /\
    @Tuple_convert K V N T cTV zV st2 mid
    = Some (mkTuple ((@convert U V cUV <$> take N (mm src))
                     ++ replicate (K - N) (@convert int V zV (Int32.repr 0)))).
Proof.
  intros HNM HNK H1 H2 Hwf.
  rewrite Tuple_convert_closed_form by done. eexists. split; [done|].
  rewrite Tuple_convert_closed_form;
    [|done|unfold wf in *; simpl;
      rewrite length_app, length_fmap, length_take, length_replicate; lia].
  unfold wf in Hwf. simpl. do 3 f_equal.
  replace (N - M) with 0 by lia. simpl. rewrite app_nil_r.
  rewrite take_ge by (rewrite length_fmap, length_take; lia).
  rewrite <- list_fmap_compose. apply list_fmap_ext. intros _ x _. apply convert_compose.
Qed.
End ConvertCompose.

Lemma Tuple_convert_convert_witness :
  exists (mid : Tuple 4 double) (dst : Tuple 3 double),
    Tuple_convert (replicate 4 S754_nan) T123 = Some mid /\
    Tuple_convert (replicate 3 S754_nan) mid = Some dst /\
    Tuple_convert (replicate 3 S754_nan) T123 = Some dst.
Proof.
  apply (Tuple_convert_convert int_to_double double_to_double int_to_double
           int_to_double int_to_double);
    [reflexivity|reflexivity|simpl; lia|reflexivity|reflexivity|reflexivity].
Defined.

Lemma Tuple_convert_narrow_widen_witness :
  exists mid : Tuple 2 int,
    Tuple_convert (replicate 2 (Int32.repr 9)) T123 = Some mid /\
    Tuple_convert (mm T000) mid = Some (ints [1; 2; 0]%Z : Tuple 3 int).
Proof.
  exact (Tuple_convert_narrow_widen (M:=3) (N:=2) (K:=3)
           int_to_int int_to_int int_to_int
           int_to_int int_to_int (fun x => eq_refl)
           (replicate 2 (Int32.repr 9)) (mm T000) T123
           ltac:(lia) ltac:(lia) eq_refl eq_refl eq_refl).
Defined.

(** ** The ordering as an order *)

Global Instance int_order_laws : OrderLaws int.
Proof.
  split; simpl; unfold Int32.eq, Int32.lt; intros x y.
  - rewrite Z.ltb_lt. intros. apply Z.eqb_neq. lia.
  - intros z. rewrite !Z.eqb_eq. lia.
  - intros z. rewrite !Z.ltb_lt. lia.
  - intros z. rewrite !Z.ltb_lt, Z.eqb_eq. lia.
  - intros z. rewrite !Z.ltb_lt, Z.eqb_eq. lia.
Qed.

Global Instance int_total_laws : TotalLaws int.
Proof.
  split; simpl; unfold Int32.eq, Int32.lt.
  - intros x. apply Z.eqb_refl.
  - intros x y. rewrite !Z.ltb_ge. intros. apply Int32Facts.int_eq. lia.
Qed.

Lemma SFcompare_trans (x y z : double) (c1 c2 : comparison) :
  SFcompare x y = Some c1 -> SFcompare y z = Some c2 ->
  c1 ≠ Gt -> c2 ≠ Gt ->
  SFcompare x z = Some (match c1 with Eq => c2 | _ => Lt end).
Proof.
  destruct x as [sx|sx| |sx mx ex], y as [sy|sy| |sy my ey], z as [sz|sz| |sz mz ez];
    simpl; try discriminate;
    try (destruct sx); try (destruct sy); try (destruct sz);
    intros [= <-] [= <-]; try done.
  all: change (Pos.compare_cont Eq) with Pos.compare in *.
  all: repeat match goal with
       | |- context [(?a ?= ?b)%Z] => destruct (Z.compare_spec a b)
       | |- context [Pos.compare ?a ?b] => destruct (Pos.compare_spec a b)
       end; subst; simpl; try done; try (exfalso; lia).
Qed.

Global Instance double_order_laws : OrderLaws double.
Proof.
  split; simpl; unfold SFeqb, SFltb.
  - intros x y. by destruct (SFcompare x y) as [[]|].
  - intros x y z Hxy Hyz.
    destruct (SFcompare x y) as [[]|] eqn:E1; try done.
    destruct (SFcompare y z) as [[]|] eqn:E2; try done.
    by rewrite (SFcompare_trans x y z _ _ E1 E2).
  - intros x y z Hxy Hyz.
    destruct (SFcompare x y) as [[]|] eqn:E1; try done.
    destruct (SFcompare y z) as [[]|] eqn:E2; try done.
    by rewrite (SFcompare_trans x y z _ _ E1 E2).
  - intros x y z Hxy Hyz.
    destruct (SFcompare x y) as [[]|] eqn:E1; try done.
    destruct (SFcompare y z) as [[]|] eqn:E2; try done.
    by rewrite (SFcompare_trans x y z _ _ E1 E2).
  - intros x y z Hxy Hyz.
    destruct (SFcompare x y) as [[]|] eqn:E1; try done.
    destruct (SFcompare y z) as [[]|] eqn:E2; try done.
    by rewrite (SFcompare_trans x y z _ _ E1 E2).
Qed.

Section ScanInversion.
Context {SIZE : nat} {T0 T1 : Type} `{!Comparable T0 T1}.

(** Where a finished scan stopped. *)
Lemma scan_loop_inv cmp n i0 (t0 : Tuple SIZE T0) (t1 : Tuple SIZE T1) res :
  scan_loop cmp n i0 t0 t1 = Some res ->
  match res with
  | Some v =>
      exists i x y, i0 ≤ i < i0 + n /\
        mm t0 !! i = Some x /\ mm t1 !! i = Some y /\
        isExactlyEqual x y = false /\ v = cmp x y /\
        forall k x' y', i0 ≤ k < i -> mm t0 !! k = Some x' -> mm t1 !! k = Some y' ->
          isExactlyEqual x' y' = true
  | None =>
      forall k x' y', i0 ≤ k < i0 + n -> mm t0 !! k = Some x' -> mm t1 !! k = Some y' ->
        isExactlyEqual x' y' = true
  end.
Proof.
  revert i0. induction n as [|n IH]; intros i0; simpl.
  - intros [= <-]. intros k x' y' Hk. lia.
  - rewrite !Tuple_at_nat.
    destruct (mm t0 !! i0) as [a|] eqn:Ha; simpl; [|done].
    destruct (mm t1 !! i0) as [b|] eqn:Hb; simpl; [|done].
    destruct (isExactlyEqual a b) eqn:Hab; simpl.
    + intros Hrun. specialize (IH _ Hrun). destruct res as [v|].
      * destruct IH as (i & x & y & Hi & Hx & Hy & Hne & Hv & Heq).
        exists i, x, y. repeat split; try done; try lia.
        intros k x' y' Hk Hx' Hy'. destruct (decide (k = i0)) as [->|Hk'].
        -- congruence.
        -- apply (Heq k); [lia|done|done].
      * intros k x' y' Hk Hx' Hy'. destruct (decide (k = i0)) as [->|Hk'].
        -- congruence.
        -- apply (IH k); [lia|done|done].
    + intros [= <-]. exists i0, a, b. repeat split; try done; try lia.
Qed.
End ScanInversion.

Section OrderFacts.
Context {SIZE : nat} {T : Type} `{!Comparable T T}.

(** With [<] excluding [==], [a < b] holds exactly when some position
    decides it: equal elements before it, a smaller element at it. *)
Lemma operator_lt_true_iff `{!OrderLaws T} (a b : Tuple SIZE T) :
  wf a -> wf b -> 0 < SIZE ->
  operator_lt a b = Some true <->
  exists (i : nat) (x y : T), i < SIZE /\
    mm a !! i = Some x /\ mm b !! i = Some y /\
    equal_before a b i /\ less x y = true.
Proof.
  intros Ha Hb Hpos. rewrite operator_lt_lex_order.
  destruct (lex_order_spec less a b Ha Hb Hpos) as (r & Hr & Hdiff & Hlast).
  rewrite Hr. unfold wf in *. split.
  - intros [= ->]. revert Hr. unfold lex_order. rewrite decide_False by lia.
    destruct (scan_loop less (SIZE - 1) 0 a b) as [res|] eqn:Hscan; simpl; [|done].
    apply scan_loop_inv in Hscan. destruct res as [v|].
    + intros [= ->]. destruct Hscan as (i & x & y & Hi & Hx & Hy & Hne & Hv & Heq).
      exists i, x, y. repeat split; try done; try lia.
      intros k x' y' Hk. apply Heq. lia.
    + replace (Z.of_nat SIZE - 1)%Z with (Z.of_nat (SIZE - 1)) by lia.
      rewrite !Tuple_at_nat.
      destruct (mm a !! (SIZE - 1)) as [x|] eqn:Hx; simpl; [|done].
      destruct (mm b !! (SIZE - 1)) as [y|] eqn:Hy; simpl; [|done].
      intros [= Hxy]. exists (SIZE - 1), x, y. repeat split; try done; try lia.
      intros k x' y' Hk. apply Hscan. lia.
  - intros (i & x & y & Hi & Hx & Hy & Heq & Hxy). f_equal.
    destruct (decide (i < SIZE - 1)) as [Hlt|Hge].
    + rewrite <- Hxy. apply (Hdiff i); try done. by apply less_not_equal.
    + replace i with (SIZE - 1) in * by lia. rewrite <- Hxy. by apply Hlast.
Qed.

(** X10. No tuple is less than or greater than itself, whatever its
    elements (a NaN included): [a < a] and [a > a] return false. *)
Theorem operator_lt_irreflexive `{!ComparableLaws T} (a : Tuple SIZE T) :
  wf a -> 0 < SIZE ->
  operator_lt a a = Some false /\ operator_gt a a = Some false.
Proof.
  intros Ha Hpos.
  assert (Hirr : forall cmp : T -> T -> bool, (forall x, cmp x x = false) ->
            lex_order cmp a a = Some false).
  { intros cmp Hcmp.
    destruct (lex_order_total cmp a a Ha Ha Hpos) as [r Hr]. rewrite Hr. f_equal.
    revert Hr. unfold lex_order. rewrite decide_False by lia.
    destruct (scan_loop cmp (SIZE - 1) 0 a a) as [res|] eqn:Hscan; simpl; [|done].
    apply scan_loop_inv in Hscan. destruct res as [v|].
    - intros [= ->]. destruct Hscan as (i & x & y & Hi & Hx & Hy & Hne & Hv & Heq).
      assert (x = y) by congruence. subst. apply Hcmp.
    - destruct (Tuple_at a _) as [x|]; simpl; [|done].
      intros [= <-]. apply Hcmp. }
  rewrite operator_lt_lex_order, operator_gt_lex_order. split; apply Hirr.
  - intros x. apply less_irrefl.
  - intros x. rewrite greater_less. apply less_irrefl.
Qed.

(** X11. [operator<] is transitive on tuples of one size and element
    type: from [a < b] and [b < c] follows [a < c]. *)
Theorem operator_lt_transitive `{!OrderLaws T} (a b c : Tuple SIZE T) :
  wf a -> wf b -> wf c -> 0 < SIZE ->
  operator_lt a b = Some true -> operator_lt b c = Some true ->
  operator_lt a c = Some true.
Proof.
  intros Ha Hb Hc Hpos Hab Hbc.
  apply operator_lt_true_iff in Hab as (i & x & y & Hi & Hx & Hy & Heq1 & Hxy);
    try done.
  apply operator_lt_true_iff in Hbc as (j & y' & z & Hj & Hy' & Hz & Heq2 & Hyz);
    try done.
  apply operator_lt_true_iff; try done. unfold wf in *.
  assert (Hbefore : forall n, n ≤ i -> n ≤ j -> equal_before a c n).
  { intros n Hni Hnj k u w Hk Hu Hw.
    destruct (lookup_lt_is_Some_2 (mm b) k) as [v Hv]; [lia|].
    apply (equal_trans u v w).
    - apply (Heq1 k); [lia|done|done].
    - apply (Heq2 k); [lia|done|done]. }
  destruct (lt_eq_lt_dec i j) as [[Hlt|Heq]|Hgt].
  - destruct (lookup_lt_is_Some_2 (mm c) i) as [w Hw]; [lia|].
    exists i, x, w. repeat split; try done; [apply Hbefore; lia|].
    apply (less_equal x y w); [done|]. by apply (Heq2 i).
  - subst j. assert (y' = y) by congruence. subst y'.
    exists i, x, z. repeat split; try done; [apply Hbefore; lia|].
    by apply (less_trans x y z).
  - destruct (lookup_lt_is_Some_2 (mm a) j) as [u Hu]; [lia|].
    exists j, u, z. repeat split; try done; [apply Hbefore; lia|].
    apply (equal_less u y' z); [|done]. by apply (Heq1 j).
Qed.

(** X12. On element types whose [==] is identity and whose [<] is total,
    two tuples neither of which is less than the other are equal:
    [operator<] separates distinct tuples, as a key order has to. *)
Theorem operator_lt_total `{!OrderLaws T} `{!TotalLaws T} (a b : Tuple SIZE T) :
  wf a -> wf b -> 0 < SIZE ->
  operator_lt a b = Some false -> operator_lt b a = Some false ->
  a = b.
Proof.
  intros Ha Hb Hpos Hab Hba.
  assert (Hprefix : forall n, n ≤ SIZE -> forall k, k < n -> mm a !! k = mm b !! k).
  { induction n as [|n IH]; intros Hn k Hk; [lia|].
    destruct (decide (k = n)) as [->|Hne]; [|apply IH; lia].
    specialize (IH ltac:(lia)). unfold wf in Ha, Hb.
    destruct (lookup_lt_is_Some_2 (mm a) n) as [x Hx]; [lia|].
    destruct (lookup_lt_is_Some_2 (mm b) n) as [y Hy]; [lia|].
    rewrite Hx, Hy. f_equal. apply less_total.
    - destruct (less x y) eqn:Hxy; [|done].
      assert (operator_lt a b = Some true) as Hcontra; [|congruence].
      apply operator_lt_true_iff; try done.
      exists n, x, y. repeat split; try done; try lia.
      intros k u w Hk' Hu Hw. rewrite IH in Hu by done.
      assert (u = w) by congruence. subst. apply equal_refl.
    - destruct (less y x) eqn:Hyx; [|done].
      assert (operator_lt b a = Some true) as Hcontra; [|congruence].
      apply operator_lt_true_iff; try done.
      exists n, y, x. repeat split; try done; try lia.
      intros k u w Hk' Hu Hw. rewrite <- IH in Hu by done.
      assert (u = w) by congruence. subst. apply equal_refl. }
  unfold wf in Ha, Hb. destruct a as [la], b as [lb]. simpl in *. f_equal.
  apply list_eq. intros k. destruct (decide (k < SIZE)) as [Hk|Hk].
  - by apply (Hprefix SIZE).
  - by rewrite !lookup_ge_None_2 by lia.
Qed.
End OrderFacts.

Lemma operator_lt_irreflexive_witness :
  operator_lt (mkTuple [S754_nan; S754_zero false] : Tuple 2 double)
              (mkTuple [S754_nan; S754_zero false]) = Some false.
Proof.
  exact (proj1 (operator_lt_irreflexive
                  (mkTuple [S754_nan; S754_zero false] : Tuple 2 double)
                  eq_refl (Nat.lt_0_succ 1))).
Defined.

Lemma operator_lt_transitive_witness :
  operator_lt (ints [1; 2; 3]%Z : Tuple 3 int) (ints [2; 0; 0]%Z) = Some true.
Proof.
  exact (operator_lt_transitive (ints [1; 2; 3]%Z : Tuple 3 int) T124 (ints [2; 0; 0]%Z)
           eq_refl eq_refl eq_refl (Nat.lt_0_succ 2) eq_refl eq_refl).
Defined.

Lemma operator_lt_total_witness : T123 = ints [1; 2; 3]%Z.
Proof.
  exact (operator_lt_total T123 (ints [1; 2; 3]%Z) eq_refl eq_refl (Nat.lt_0_succ 2)
           eq_refl eq_refl).
Defined.

(** X13. A [double] tuple whose first element is a NaN is neither less nor
    greater than any tuple, in either operand order: the ordering does not
    place it. *)
Theorem operator_lt_nan {SIZE : nat} (a b : Tuple SIZE double) :
  wf a -> wf b -> 0 < SIZE ->
  mm a !! 0 = Some S754_nan ->
  operator_lt a b = Some false /\ operator_lt b a = Some false /\
  operator_gt a b = Some false /\ operator_gt b a = Some false.
Proof.
  intros Ha Hb Hpos Hnan.
  assert (Hb0 : exists y, mm b !! 0 = Some y).
  { apply lookup_lt_is_Some_2. unfold wf in Hb. lia. }
  destruct Hb0 as [y Hy].
  assert (Hl : forall cmp : double -> double -> bool,
            (forall v, cmp S754_nan v = false) ->
            lex_order cmp a b = Some false).
  { intros cmp Hcmp.
    destruct (lex_order_spec cmp a b Ha Hb Hpos) as (r & Hr & Hdiff & Hlast).
    rewrite Hr. f_equal. destruct (decide (0 < SIZE - 1)) as [Hlt|Hge].
    - rewrite (Hdiff 0 S754_nan y); try done. intros k u w Hk. lia.
    - replace (SIZE - 1) with 0 in Hlast by lia.
      rewrite (Hlast S754_nan y); try done. intros k u w Hk. lia. }
  assert (Hr : forall cmp : double -> double -> bool,
            (forall v, cmp v S754_nan = false) ->
            lex_order cmp b a = Some false).
  { intros cmp Hcmp.
    destruct (lex_order_spec cmp b a Hb Ha Hpos) as (r & Hr & Hdiff & Hlast).
    rewrite Hr. f_equal. destruct (decide (0 < SIZE - 1)) as [Hlt|Hge].
    - rewrite (Hdiff 0 y S754_nan); try done.
      + intros k u w Hk. lia.
      + simpl. unfold SFeqb. by destruct y.
    - replace (SIZE - 1) with 0 in Hlast by lia.
      rewrite (Hlast y S754_nan); try done. intros k u w Hk. lia. }
  rewrite !operator_lt_lex_order, !operator_gt_lex_order.
  repeat split; (apply Hl || apply Hr); intros v; simpl;
    unfold SFltb, SFgtb; by destruct v.
Qed.

Lemma operator_lt_nan_witness :
  operator_lt (mkTuple [S754_nan; S754_zero false] : Tuple 2 double)
              (mkTuple [S754_infinity false; S754_zero false]) = Some false.
Proof.
  exact (proj1 (operator_lt_nan
                  (mkTuple [S754_nan; S754_zero false] : Tuple 2 double)
                  (mkTuple [S754_infinity false; S754_zero false])
                  eq_refl eq_refl (Nat.lt_0_succ 1) eq_refl)).
Defined.

(** ** More on [Abs] *)

Section AbsFacts.
Context {SIZE : nat} {T : Type}.

Lemma absVal_loop_None (f : T -> option T) (storage : list T) (t : Tuple SIZE T) :
  length storage = SIZE -> wf t ->
  (exists x, x ∈ mm t /\ f x = None) ->
  absVal_loop f storage t = None.
Proof.
  intros Hlen Hwf (x & Hin & Hx). unfold wf in Hwf.
  apply list_elem_of_lookup in Hin as [k Hk].
  pose proof (lookup_lt_Some _ _ _ Hk) as Hklt.
  unfold absVal_loop, for_loop.
  apply (for_iter_None (fun _ (r : Tuple SIZE T) => length (mm r) = SIZE)
           (SIZE - 0) 0 k); [done| |lia|].
  - intros j r Hj Hr. rewrite Tuple_at_nat.
    destruct (mm t !! j) as [u|]; simpl; [|by left].
    destruct (f u) as [w|]; simpl; [|by left].
    right. rewrite Tuple_assign_nat by lia. eexists. split; [done|].
    simpl. by rewrite length_insert.
  - intros r Hr. rewrite Tuple_at_nat, Hk. simpl. by rewrite Hx.
Qed.

Lemma absVal_loop_Some_inv (f : T -> option T) (storage : list T)
    (t r : Tuple SIZE T) :
  length storage = SIZE -> wf t ->
  absVal_loop f storage t = Some r ->
  wf r /\ forall (i : nat) (x : T), mm t !! i = Some x -> mm r !! i = f x /\ is_Some (f x).
Proof.
  intros Hlen Hwf Hrun.
  assert (Hdef : forall x, x ∈ mm t -> is_Some (f x)).
  { intros x Hin. destruct (f x) as [y|] eqn:Hx; [by eexists|].
    rewrite absVal_loop_None in Hrun; [done|done|done|by exists x]. }
  destruct (absVal_loop_spec f storage t Hlen Hwf Hdef) as (r' & Hr' & Hwf' & Hel).
  assert (r' = r) by congruence. subst r'. split; [done|].
  intros i x Hx. split; [by apply Hel|]. apply Hdef. by eapply list_elem_of_lookup_2.
Qed.

(** X14. [Abs] is undefined exactly when the absolute value of some
    element is: for [int] tuples, when an element is [INT_MIN]. *)
Theorem Abs_None_iff (N : Numeric T) (storage : list T) (t : Tuple SIZE T) :
  length storage = SIZE -> wf t ->
  (Abs storage t = None <-> exists x : T, x ∈ mm t /\ @abs_op T N x = None).
Proof.
  intros Hlen Hwf. rewrite Abs_absVal_loop. split.
  - intros Hnone.
    destruct (Forall_Exists_dec (fun x => is_Some (@abs_op T N x))
                (fun x => @abs_op T N x = None)
                (fun x => match @abs_op T N x as o
                            return {is_Some o} + {o = None} with
                          | Some y => left (ex_intro _ y eq_refl)
                          | None => right eq_refl
                          end) (mm t)) as [Hall|Hex].
    + rewrite Forall_forall in Hall.
      destruct (absVal_loop_spec abs_op storage t Hlen Hwf Hall) as (r & Hr & _).
      congruence.
    + apply Exists_exists in Hex. exact Hex.
  - by apply absVal_loop_None.
Qed.

(** X15. [Abs] is idempotent: applied to a tuple that [Abs] returned, it
    returns that tuple again (the absolute value of an absolute value being
    defined and the same value, as it is for [int] and [double]). *)
Theorem Abs_idempotent (N : Numeric T) (storage storage' : list T)
    (t r : Tuple SIZE T) :
  (forall x y : T, @abs_op T N x = Some y -> @abs_op T N y = Some y) ->
  length storage = SIZE -> length storage' = SIZE -> wf t ->
  Abs storage t = Some r ->
  Abs storage' r = Some r.
Proof.
  intros Hidem Hlen Hlen' Hwf. rewrite !Abs_absVal_loop. intros Hrun.
  destruct (absVal_loop_Some_inv _ _ _ _ Hlen Hwf Hrun) as [Hwfr Hel].
  assert (Hfix : forall i y, mm r !! i = Some y -> @abs_op T N y = Some y).
  { intros i y Hy. unfold wf in *.
    destruct (lookup_lt_is_Some_2 (mm t) i) as [x Hx].
    { apply lookup_lt_Some in Hy. lia. }
    destruct (Hel i x Hx) as [Hri _]. apply (Hidem x). congruence. }
  destruct (absVal_loop_spec abs_op storage' r Hlen' Hwfr) as (r' & Hr' & Hwfr' & Hel').
  { intros y Hin. apply list_elem_of_lookup in Hin as [i Hi].
    rewrite (Hfix i y Hi). by eexists. }
  rewrite Hr'. f_equal. unfold wf in *. destruct r as [lr], r' as [lr']. simpl in *.
  f_equal. apply list_eq. intros i.
  destruct (lr !! i) as [y|] eqn:Hy.
  - rewrite (Hel' i y Hy). by apply (Hfix i).
  - apply lookup_ge_None in Hy. apply lookup_ge_None. lia.
Qed.
End AbsFacts.

Lemma int_abs_idem (x y : int) : Int32.abs x = Some y -> Int32.abs y = Some y.
Proof.
  intros Hxy. apply int_abs_spec in Hxy as [Hx Hy].
  apply int_abs_spec. pose proof (Int32Facts.intval_bounds y) as Hb.
  unfold Int32.INT_MIN in *. lia.
Qed.

Lemma double_abs_idem (x : double) : SFabs (SFabs x) = SFabs x.
Proof. by destruct x. Qed.

Lemma Abs_None_iff_witness :
  Abs (mm T000) (ints [1; -2147483648; 3]%Z : Tuple 3 int) = None.
Proof.
  apply (proj2 (Abs_None_iff int_numeric (mm T000)
                  (ints [1; -2147483648; 3]%Z : Tuple 3 int) eq_refl eq_refl)).
  exists (Int32.repr (-2147483648)). split; [|reflexivity].
  apply list_elem_of_lookup. by exists 1.
Defined.

Lemma Abs_idempotent_witness : Abs (mm T000) T123 = Some T123.
Proof.
  exact (Abs_idempotent int_numeric (mm T000) (mm T000)
           (ints [-1; 2; -3]%Z : Tuple 3 int) T123
           int_abs_idem eq_refl eq_refl eq_refl eq_refl).
Defined.

(** X16. On an [int] tuple none of whose elements is [INT_MIN], [Abs]
    returns a tuple without a negative element; and it returns a tuple
    without negative elements unchanged. *)
Theorem Abs_int_nonnegative {SIZE : nat} (storage : list int) (t : Tuple SIZE int) :
  length storage = SIZE -> wf t ->
  ((forall x : int, x ∈ mm t -> Int32.intval x ≠ Int32.INT_MIN) ->
   exists r : Tuple SIZE int,
     Abs storage t = Some r /\ wf r /\
     forall y : int, y ∈ mm r -> (0 ≤ Int32.intval y)%Z) /\
  ((forall x : int, x ∈ mm t -> (0 ≤ Int32.intval x)%Z) -> Abs storage t = Some t).
Proof.
  intros Hlen Hwf. rewrite Abs_absVal_loop. split.
  - intros Hmin.
    destruct (absVal_loop_spec abs_op storage t Hlen Hwf) as (r & Hr & Hwfr & Hel).
    { intros x Hin. exists (Int32.repr (Z.abs (Int32.intval x))).
      change (Int32.abs x = Some (Int32.repr (Z.abs (Int32.intval x)))).
      unfold Int32.abs. by rewrite decide_False by (by apply Hmin). }
    exists r. split; [done|]. split; [done|]. intros y Hin.
    apply list_elem_of_lookup in Hin as [i Hi]. unfold wf in *.
    destruct (lookup_lt_is_Some_2 (mm t) i) as [x Hx].
    { apply lookup_lt_Some in Hi. lia. }
    pose proof (Hel i x Hx) as Hri. rewrite Hi in Hri. symmetry in Hri.
    apply int_abs_spec in Hri as [_ ->]. lia.
  - intros Hnonneg.
    assert (Hfix : forall x : int, x ∈ mm t -> abs_op x = Some x).
    { intros x Hin. apply int_abs_spec. specialize (Hnonneg x Hin).
      unfold Int32.INT_MIN. lia. }
    destruct (absVal_loop_spec abs_op storage t Hlen Hwf) as (r & Hr & Hwfr & Hel).
    { intros x Hin. rewrite (Hfix x Hin). by eexists. }
    rewrite Hr. f_equal. unfold wf in *. destruct t as [lt], r as [lr]. simpl in *.
    f_equal. apply list_eq. intros i.
    destruct (lt !! i) as [x|] eqn:Hx.
    + rewrite (Hel i x Hx). apply Hfix. by eapply list_elem_of_lookup_2.
    + apply lookup_ge_None in Hx. apply lookup_ge_None. lia.
Qed.

Lemma Abs_int_nonnegative_witness :
  exists r : Tuple 3 int,
    Abs (mm T000) (ints [-1; 2; -3]%Z : Tuple 3 int) = Some r /\ wf r /\
    forall y : int, y ∈ mm r -> (0 ≤ Int32.intval y)%Z.
Proof.
  apply (proj1 (Abs_int_nonnegative (mm T000) (ints [-1; 2; -3]%Z : Tuple 3 int)
                  eq_refl eq_refl)).
  intros x Hin. apply list_elem_of_lookup in Hin as [i Hi].
  destruct i as [|[|[|i]]]; simpl in Hi; try discriminate;
    injection Hi as <-; discriminate.
Defined.

(** ** More on raw binary I/O *)

Section IOFacts.
Context {SIZE : nat} {T : Type} `{!ObjectRepr T} `{!ObjectReprLaws T}.

(** A [read] from a good stream that starts with the bytes of [t]. *)
Lemma Tuple_read_full (t dst : Tuple SIZE T) (rest : list byte) :
  wf t -> wf dst ->
  Tuple_read dst (mkIstream (array_bytes (mm t) ++ rest) false false false)
  = Some (t, mkIstream rest false false false).
Proof.
  intros Ht Hdst.
  pose proof (length_array_bytes (mm t)) as Hlt.
  pose proof (length_array_bytes (mm dst)) as Hld.
  unfold wf in *. rewrite Ht in Hlt. rewrite Hdst in Hld.
  unfold Tuple_read, istream_read. rewrite decide_True by lia. simpl.
  rewrite take_app_length' by lia. rewrite Hlt.
  rewrite drop_app_length' by lia.
  rewrite (drop_ge (array_bytes (mm dst))) by lia.
  rewrite bool_decide_eq_false_2 by lia.
  rewrite (array_of_bytes_of_array SIZE (mm t) []) by done.
  by destruct t.
Qed.

(** X18. A [read] from a stream that is not good, or that has no bytes
    left, leaves the tuple and the pending input as they are; it sets
    [failbit] (unless nothing was asked of a good stream). *)
Theorem Tuple_read_nothing (t : Tuple SIZE T) (istr : istream) :
  wf t ->
  good istr = false \/ is_data istr = [] ->
  exists istr' : istream,
    Tuple_read t istr = Some (t, istr') /\
    is_data istr' = is_data istr /\
    (good istr = false \/ 0 < sizeof T * SIZE -> failbit istr' = true).
Proof.
  intros Hwf Hcase.
  pose proof (length_array_bytes (mm t)) as Hlen.
  assert (Hdec : array_of_bytes SIZE (array_bytes (mm t)) = mm t).
  { rewrite <- (app_nil_r (array_bytes (mm t))). by apply array_of_bytes_of_array. }
  unfold wf in Hwf. rewrite Hwf in Hlen.
  unfold Tuple_read, istream_read. rewrite decide_True by lia.
  destruct (good istr) eqn:Hgood; cbn [fst snd mbind option_bind].
  - destruct Hcase as [|Hempty]; [done|]. rewrite Hempty.
    rewrite take_nil, drop_nil.
    change ([] ++ drop (length (@nil byte)) (array_bytes (mm t)))
      with (array_bytes (mm t)).
    rewrite Hdec.
    eexists. split; [by destruct t|]. split; [done|]. simpl.
    intros [|Hpos]; [done|]. by apply bool_decide_eq_true_2.
  - rewrite Hdec. eexists. split; [by destruct t|]. split; [done|]. done.
Qed.


(** The bytes of the values that bytes hold are those bytes. *)
Lemma array_bytes_of_bytes `{!ObjectReprOnto T} (n : nat) (bs : list byte) :
  length bs = sizeof T * n ->
  array_bytes (array_of_bytes (T:=T) n bs) = bs.
Proof.
  revert bs. induction n as [|n IH]; intros bs Hlen; simpl.
  - destruct bs; [done|]. simpl in Hlen. lia.
  - rewrite array_bytes_cons. rewrite to_of_bytes by (rewrite length_take; lia).
    rewrite IH by (rewrite length_drop; lia). apply take_drop.
Qed.

(** X20. Where every [sizeof(T)] bytes are an object representation (as
    for [int]), [read] followed by [write] reproduces the bytes that were
    read: the two are inverse to each other in both directions. *)
Theorem Tuple_read_write `{!ObjectReprOnto T}
    (dst : Tuple SIZE T) (bs rest : list byte) (os : ostream) :
  wf dst ->
  length bs = sizeof T * SIZE ->
  exists (t : Tuple SIZE T) (istr' : istream),
    Tuple_read dst (mkIstream (bs ++ rest) false false false) = Some (t, istr') /\
    wf t /\ is_data istr' = rest /\
    Tuple_write t os = Some (os ++ bs).
Proof.
  intros Hdst Hbs.
  pose proof (length_array_bytes (mm dst)) as Hld.
  unfold wf in Hdst. rewrite Hdst in Hld.
  unfold Tuple_read, istream_read. rewrite decide_True by lia. simpl.
  rewrite take_app_length' by lia. rewrite drop_app_length' by lia.
  rewrite Hbs, (drop_ge (array_bytes (mm dst))) by lia. rewrite app_nil_r.
  eexists _, _. split; [done|].
  assert (Hwf : wf (mkTuple (array_of_bytes SIZE bs) : Tuple SIZE T)).
  { unfold wf. simpl. apply length_array_of_bytes. }
  split; [done|]. split; [done|].
  rewrite Tuple_write_closed_form by done. simpl.
  by rewrite array_bytes_of_bytes.
Qed.
End IOFacts.

Section IOSequence.
Context {SIZE1 SIZE2 : nat} {T1 T2 : Type}.
Context `{!ObjectRepr T1} `{!ObjectReprLaws T1} `{!ObjectRepr T2} `{!ObjectReprLaws T2}.

(** X17. Two tuples written one after the other are read back one after
    the other, each into any tuple of its own size and element type, and
    the second [read] leaves the stream good at the bytes that follow. *)
Theorem Tuple_write_write_read_read
    (t1 d1 : Tuple SIZE1 T1) (t2 d2 : Tuple SIZE2 T2)
    (os : ostream) (rest : list byte) :
  wf t1 -> wf d1 -> wf t2 -> wf d2 ->
  exists (os1 os2 : ostream) (is1 is2 : istream),
    Tuple_write t1 os = Some os1 /\
    Tuple_write t2 os1 = Some os2 /\
    Tuple_read d1 (mkIstream (drop (length os) os2 ++ rest) false false false)
      = Some (t1, is1) /\
    Tuple_read d2 is1 = Some (t2, is2) /\
    good is2 = true /\ is_data is2 = rest.
Proof.
  intros Ht1 Hd1 Ht2 Hd2.
  exists (os ++ array_bytes (mm t1)),
         ((os ++ array_bytes (mm t1)) ++ array_bytes (mm t2)),
         (mkIstream (array_bytes (mm t2) ++ rest) false false false),
         (mkIstream rest false false false).
  split; [by apply Tuple_write_closed_form|].
  split; [by apply Tuple_write_closed_form|].
  rewrite <- (app_assoc os), drop_app_length, <- app_assoc.
  split; [by apply Tuple_read_full|].
  split; [by apply Tuple_read_full|]. done.
Qed.
End IOSequence.

Lemma byte_of_Z_of_byte (b : byte) : byte_of_Z (Z_of_byte b) = b.
Proof.
  unfold byte_of_Z, Z_of_byte.
  pose proof (Byte.to_N_bounded b) as Hb.
  rewrite Z.mod_small by lia. rewrite N2Z.id, Byte.of_to_N. done.
Qed.

Lemma Z_of_byte_range (b : byte) : (0 ≤ Z_of_byte b < 256)%Z.
Proof. unfold Z_of_byte. pose proof (Byte.to_N_bounded b). lia. Qed.

Lemma digit_mod (z w : Z) : (0 ≤ z < 256)%Z -> ((z + 256 * w) mod 256 = z)%Z.
Proof.
  intros Hz. rewrite (Z.mul_comm 256 w), Z.mod_add by lia. by apply Z.mod_small.
Qed.

Lemma digit_div (z w : Z) : (0 ≤ z < 256)%Z -> ((z + 256 * w) / 256 = w)%Z.
Proof.
  intros Hz. rewrite (Z.mul_comm 256 w), Z.div_add by lia.
  rewrite Z.div_small by lia. lia.
Qed.

Global Instance int_repr_onto : ObjectReprOnto int.
Proof.
  intros bs Hlen. destruct bs as [|b0 [|b1 [|b2 [|b3 [|]]]]]; try discriminate.
  pose proof (Z_of_byte_range b0) as H0. pose proof (Z_of_byte_range b1) as H1.
  pose proof (Z_of_byte_range b2) as H2. pose proof (Z_of_byte_range b3) as H3.
  set (u := le_decode [b0; b1; b2; b3]).
  assert (Hu : u = (Z_of_byte b0 + 256 * (Z_of_byte b1 + 256 *
                      (Z_of_byte b2 + 256 * (Z_of_byte b3 + 256 * 0))))%Z) by done.
  assert (Hrange : (0 ≤ u < Int32.modulus)%Z) by (unfold Int32.modulus; lia).
  assert (Hmod : (Int32.intval (Int32.repr u) mod Int32.modulus = u)%Z).
  { simpl. unfold Int32.wrap.
    rewrite Z.add_mod_idemp_l by (unfold Int32.modulus; lia).
    replace (u - Int32.INT_MIN + Int32.INT_MIN)%Z with u by lia.
    by apply Z.mod_small. }
  change (to_bytes (of_bytes [b0; b1; b2; b3]))
    with (let v := (Int32.intval (Int32.repr u) mod Int32.modulus)%Z in
          [byte_of_Z v; byte_of_Z (v / 256); byte_of_Z (v / 65536);
           byte_of_Z (v / 16777216)]).
  rewrite Hmod. cbv zeta.
  replace (u / 65536)%Z with (u / 256 / 256)%Z
    by (rewrite Z.div_div by lia; reflexivity).
  replace (u / 16777216)%Z with (u / 256 / 256 / 256)%Z
    by (rewrite !Z.div_div by lia; reflexivity).
  unfold byte_of_Z. rewrite Hu.
  rewrite !digit_div by lia. rewrite !digit_mod by lia.
  unfold Z_of_byte. rewrite !N2Z.id, !Byte.of_to_N. done.
Qed.

Lemma Tuple_read_nothing_witness :
  exists istr' : istream,
    Tuple_read T123 (mkIstream [] false false false) = Some (T123, istr') /\
    failbit istr' = true.
Proof.
  destruct (Tuple_read_nothing T123 (mkIstream [] false false false) eq_refl
              (or_intror eq_refl)) as (istr' & Hrun & _ & Hfail).
  exists istr'. split; [exact Hrun|]. apply Hfail. right. simpl. lia.
Defined.


Lemma Tuple_read_write_witness :
  exists (t : Tuple 1 int) (istr' : istream),
    Tuple_read (ints [0]%Z : Tuple 1 int)
      (mkIstream ([xff; xff; xff; x7f] ++ [x2a]) false false false) = Some (t, istr') /\
    wf t /\ is_data istr' = [x2a] /\
    Tuple_write t [] = Some ([] ++ [xff; xff; xff; x7f]).
Proof.
  exact (Tuple_read_write (ints [0]%Z : Tuple 1 int) [xff; xff; xff; x7f] [x2a] []
           eq_refl eq_refl).
Defined.

Lemma Tuple_write_write_read_read_witness :
  exists (os1 os2 : ostream) (is1 is2 : istream),
    Tuple_write T123 [] = Some os1 /\
    Tuple_write (ints [-7; 8]%Z : Tuple 2 int) os1 = Some os2 /\
    Tuple_read T000 (mkIstream (drop (length (@nil byte)) os2 ++ [])
                       false false false) = Some (T123, is1) /\
    Tuple_read (ints [0; 0]%Z : Tuple 2 int) is1
      = Some (ints [-7; 8]%Z : Tuple 2 int, is2) /\
    good is2 = true /\ is_data is2 = [].
Proof.
  exact (Tuple_write_write_read_read T123 T000
           (ints [-7; 8]%Z : Tuple 2 int) (ints [0; 0]%Z : Tuple 2 int) [] []
           eq_refl eq_refl eq_refl eq_refl).
Defined.
